(** * A shallow embedding of the lexical analyser of [LA.cpp]

    The C++ program reads a whole source text into a [std::string] and runs
    [lexicalAnalysis] on it: a hand-written scanner that walks an index over
    the text and appends [Token]s to a vector.  This file embeds the
    character classifiers, the two constant sets, the scanner and its caller
    [main], loop for loop, and proves the properties its specification
    states.

    Conventions of the embedding.
    - A [std::string] is a list of 8-bit characters ([list ascii]).
    - [char] is compared through its code.  Whether [char] is signed is left
      to the implementation by C++; every comparison of the program is
      against a 7-bit constant, so bytes 128..255 fail the range tests under
      both readings and the unsigned code is used here.
    - [int] has 32 bits and [size_t] has 64.  [current_index] is an [int]:
      it is embedded as an integer ([Z]), every addition on it is checked
      against the range of [int] and yields [Overflow] outside it (signed
      overflow is undefined in C++), and where the program compares it with
      [sourceCode.length()] or indexes with it, it is first converted to
      [size_t], modulo 2^64.
    - [sourceCode[i]] is a partial read: reading at or beyond the length of
      the text yields [OutOfBounds], which propagates to the result.
    - every [while] runs on a step budget and yields [OutOfFuel] when the
      budget is used up before its condition turns false. *)

From Stdlib Require Import Ascii String List Arith ZArith Bool Lia.
Import ListNotations.

Set Implicit Arguments.

(** ** Data model *)

(** [std::string] *)
Definition cstring : Type := list ascii.

(** A string literal of the program. *)
Definition lit (s : string) : cstring := list_ascii_of_string s.

(** [struct Token { std::string type; std::string value; }] *)
Record Token : Type := mkToken { type : cstring ; value : cstring }.

(** The brace initialiser [{"KIND", lexeme}] of the program. *)
Definition tok (kind : string) (lexeme : cstring) : Token :=
  {| type := lit kind ; value := lexeme |}.

(** ** Results of partial computations *)

Inductive result (A : Type) : Type :=
| Ok (a : A)
| OutOfBounds
| Overflow
| OutOfFuel.

Arguments OutOfBounds {A}.
Arguments Overflow {A}.
Arguments OutOfFuel {A}.

Definition bind {A B : Type} (m : result A) (k : A -> result B) : result B :=
  match m with
  | Ok a => k a
  | OutOfBounds => OutOfBounds
  | Overflow => Overflow
  | OutOfFuel => OutOfFuel
  end.

Declare Scope lex_scope.
Delimit Scope lex_scope with lex.
Open Scope lex_scope.

Notation "x <- m ;; k" := (bind m (fun x => k))
  (at level 61, m at next level, right associativity) : lex_scope.

(** [a && b] of C++: [b] is evaluated only when [a] holds. *)
Definition and_then (a b : result bool) : result bool :=
  x <- a ;; if x then b else Ok false.

(** [a || b] of C++: [b] is evaluated only when [a] fails. *)
Definition or_else (a b : result bool) : result bool :=
  x <- a ;; if x then Ok true else b.

(** ** Machine integers *)

Definition INT_MIN : Z := -2147483648.
Definition INT_MAX : Z := 2147483647.

(** [a + b] on [int]: undefined when the sum is not an [int]. *)
Definition int_add (a b : Z) : result Z :=
  if ((INT_MIN <=? a + b) && (a + b <=? INT_MAX))%Z then Ok (a + b)%Z
  else Overflow.

(** The conversion of an [int] to [size_t]. *)
Definition to_size_t (i : Z) : Z := (i mod 18446744073709551616)%Z.

(** [s.length()] *)
Definition len (s : cstring) : Z := Z.of_nat (length s).

(** [sourceCode[i]], the [int] [i] converted to [size_t]. *)
Definition at_index (s : cstring) (i : Z) : result ascii :=
  match nth_error s (Z.to_nat (to_size_t i)) with
  | Some c => Ok c
  | None => OutOfBounds
  end.

(** [i < s.length()], the [int] [i] converted to [size_t]. *)
Definition index_lt_length (i : Z) (s : cstring) : bool :=
  (to_size_t i <? len s)%Z.

(** [while (cond) body], cut off after [fuel] evaluations of [cond]. *)
Fixpoint while_loop {S : Type} (fuel : nat) (cond : S -> result bool)
    (body : S -> result S) (st : S) : result S :=
  match fuel with
  | 0 => OutOfFuel
  | S fuel' =>
      b <- cond st ;;
      if b then st' <- body st ;; while_loop fuel' cond body st'
      else Ok st
  end.

(** ** Character classifiers *)

Definition char_le (a b : ascii) : bool := nat_of_ascii a <=? nat_of_ascii b.

Notation "a <=c b" := (char_le a b) (at level 70, no associativity) : lex_scope.
Notation "a >=c b" := (char_le b a) (at level 70, no associativity) : lex_scope.
Notation "a ==c b" := (Ascii.eqb a b) (at level 70, no associativity) : lex_scope.

Definition isLetter (c : ascii) : bool :=
  ((c >=c "a") && (c <=c "z")) || ((c >=c "A") && (c <=c "Z")).

Definition isDigit (c : ascii) : bool :=
  (c >=c "0") && (c <=c "9").

Definition isWhitespace (c : ascii) : bool :=
  (c ==c " ") || (c ==c "009") || (c ==c "010") || (c ==c "013").

(** ** The constant sets *)

Definition cstring_eqb (a b : cstring) : bool :=
  if list_eq_dec ascii_dec a b then true else false.

(** [std::set::count]: the number of elements equal to the key. *)
Definition set_count {A : Type} (eqb : A -> A -> bool) (s : list A) (x : A) : nat :=
  length (filter (eqb x) s).

(** The conversion of a [size_t] to [bool]. *)
Definition to_bool (n : nat) : bool := negb (n =? 0).

Definition KEYWORDS : list cstring :=
  [ lit "int"; lit "float"; lit "if"; lit "else"; lit "while";
    lit "return"; lit "void" ].

Definition isKeyword (lexeme : cstring) : bool :=
  to_bool (set_count cstring_eqb KEYWORDS lexeme).

Definition SINGLE_CHAR_TOKENS : list ascii :=
  [ "+"; "-"; "*"; "/"; "="; ">"; "<"; ";"; "("; ")"; "{"; "}" ]%char.

(** ** The scanner *)

(** The variables of [lexicalAnalysis] that live across iterations. *)
Record LexState : Type := mkState
  { current_index : Z ; tokens : list Token }.

(** [tokens.push_back(t)] *)
Definition push_back (v : list Token) (t : Token) : list Token := v ++ [t].

(** The inner loops work on [current_index] and [current_lexeme]. *)
Definition Accum : Type := (Z * cstring)%type.

(** [current_index < sourceCode.length() &&
     (isLetter(sourceCode[current_index]) || isDigit(sourceCode[current_index]))] *)
Definition ident_cond (sourceCode : cstring) (st : Accum) : result bool :=
  let i := fst st in
  and_then (Ok (index_lt_length i sourceCode))
    (or_else (c <- at_index sourceCode i ;; Ok (isLetter c))
             (c <- at_index sourceCode i ;; Ok (isDigit c))).

(** [current_index < sourceCode.length() && isDigit(sourceCode[current_index])] *)
Definition digit_cond (sourceCode : cstring) (st : Accum) : result bool :=
  let i := fst st in
  and_then (Ok (index_lt_length i sourceCode))
    (c <- at_index sourceCode i ;; Ok (isDigit c)).

(** [current_lexeme += sourceCode[current_index]; current_index++;] *)
Definition accum_body (sourceCode : cstring) (st : Accum) : result Accum :=
  let (i, current_lexeme) := st in
  c <- at_index sourceCode i ;;
  let current_lexeme := current_lexeme ++ [c] in
  i <- int_add i 1 ;;
  Ok (i, current_lexeme).

(** The guard of the two-character branch:
    [(c == '=' || c == '<' || c == '>') &&
     current_index + 1 < sourceCode.length() &&
     sourceCode[current_index + 1] == '='] *)
Definition lookahead_cond (sourceCode : cstring) (i : Z) (current_char : ascii)
  : result bool :=
  and_then
    (and_then
       (Ok ((current_char ==c "=") || (current_char ==c "<") || (current_char ==c ">")))
       (j <- int_add i 1 ;; Ok (index_lt_length j sourceCode)))
    (j <- int_add i 1 ;; c <- at_index sourceCode j ;; Ok (c ==c "=")).

(** One iteration of the outer loop (the body of [while (current_index <
    sourceCode.length())]).  [fuel] is the budget of the inner loops. *)
Definition loop_body (fuel : nat) (sourceCode : cstring) (st : LexState)
  : result LexState :=
  let i := current_index st in
  let tokens := tokens st in
  current_char <- at_index sourceCode i ;;
  if isWhitespace current_char then
    i <- int_add i 1 ;;
    Ok (mkState i tokens)
  else if isLetter current_char then
    let current_lexeme := [] ++ [current_char] in
    i <- int_add i 1 ;;
    acc <- while_loop fuel (ident_cond sourceCode) (accum_body sourceCode)
             (i, current_lexeme) ;;
    let (i, current_lexeme) := (acc : Accum) in
    if isKeyword current_lexeme then
      Ok (mkState i (push_back tokens (tok "KEYWORD" current_lexeme)))
    else
      Ok (mkState i (push_back tokens (tok "IDENTIFIER" current_lexeme)))
  else if isDigit current_char then
    let current_lexeme := [] ++ [current_char] in
    i <- int_add i 1 ;;
    acc <- while_loop fuel (digit_cond sourceCode) (accum_body sourceCode)
             (i, current_lexeme) ;;
    let (i, current_lexeme) := (acc : Accum) in
    Ok (mkState i (push_back tokens (tok "INTEGER" current_lexeme)))
  else if to_bool (set_count Ascii.eqb SINGLE_CHAR_TOKENS current_char) then
    let token_value := [current_char] in
    two <- lookahead_cond sourceCode i current_char ;;
    if two then
      j <- int_add i 1 ;;
      c <- at_index sourceCode j ;;
      let token_value := token_value ++ [c] in
      i <- int_add i 2 ;;
      Ok (mkState i (push_back tokens (tok "RELATIONAL_OPERATOR" token_value)))
    else
      i <- int_add i 1 ;;
      if (current_char ==c "+") || (current_char ==c "-") || (current_char ==c "*") then
        Ok (mkState i (push_back tokens (tok "ARITHMETIC_OPERATOR" token_value)))
      else if (current_char ==c "=") && (length token_value =? 1) then
        Ok (mkState i (push_back tokens (tok "ASSIGNMENT_OPERATOR" token_value)))
      else
        Ok (mkState i (push_back tokens (tok "DELIMITER" token_value)))
  else
    let tokens := push_back tokens (tok "ERROR" [current_char]) in
    i <- int_add i 1 ;;
    Ok (mkState i tokens).

(** [current_index < sourceCode.length()] *)
Definition main_cond (sourceCode : cstring) (st : LexState) : result bool :=
  Ok (index_lt_length (current_index st) sourceCode).

(** [lexicalAnalysis] with every loop cut off after [fuel] tests. *)
Definition lexicalAnalysis_within (fuel : nat) (sourceCode : cstring)
  : result (list Token) :=
  st <- while_loop fuel (main_cond sourceCode) (loop_body fuel sourceCode)
          (mkState 0%Z []) ;;
  Ok (tokens st).

(** [lexicalAnalysis]: no loop of the scanner tests its condition more than
    once per character plus once at the end, so this budget never runs out
    (proved below). *)
Definition lexicalAnalysis (sourceCode : cstring) : result (list Token) :=
  lexicalAnalysis_within (S (length sourceCode)) sourceCode.

(** ** The caller: [main]

    [main] talks to the outside through four channels: the word that
    [std::cin >> filename] extracts (empty when the extraction fails), the
    file system, asked once whether the file opens and what it holds, and
    the two output streams.  The first two are arguments of the embedding;
    the streams are the [Console] that is threaded through. *)

Definition tab : ascii := "009".
Definition newline : ascii := "010".

Record Console : Type := mkConsole { cout : cstring ; cerr : cstring }.

(** [std::cout << s] *)
Definition to_cout (s : cstring) (w : Console) : Console :=
  mkConsole (cout w ++ s) (cerr w).

(** [std::cerr << s] *)
Definition to_cerr (s : cstring) (w : Console) : Console :=
  mkConsole (cout w) (cerr w ++ s).

(** The body of [for (const auto& token : output_tokens)]. *)
Definition print_token (w : Console) (token : Token) : Console :=
  let w := to_cout (type token) w in
  let w := if length (type token) <? 8 then to_cout [tab] w else w in
  to_cout [newline] (to_cout (value token) (to_cout [tab; tab] w)).

Definition print_tokens (output_tokens : list Token) (w : Console) : Console :=
  fold_left print_token output_tokens w.

(** [main], given the extracted [filename] and the file system
    [open_file] ([None]: the file does not open; [Some s]: it opens and
    holds [s]).  The result is the exit status and what was written. *)
Definition main (filename : cstring) (open_file : cstring -> option cstring)
  : result (Z * Console) :=
  let w := mkConsole [] [] in
  let w := to_cout (lit "Enter the source code filename (e.g., example.txt): ") w in
  match open_file filename with
  | None =>
      let w := to_cerr (lit "Error: Could not open the file '") w in
      let w := to_cerr filename w in
      let w := to_cerr (lit "'. Please check the path and filename." ++ [newline]) w in
      Ok (1%Z, w)
  | Some sourceCode =>
      let w := to_cout ([newline] ++ lit "--- Source Code Read from ") w in
      let w := to_cout filename w in
      let w := to_cout (lit " ---" ++ [newline]) w in
      let w := to_cout sourceCode w in
      let w := to_cout ([newline] ++ lit "-------------------" ++ [newline]) w in
      output_tokens <- lexicalAnalysis sourceCode ;;
      let w := to_cout ([newline] ++ lit "--- Lexical Analysis Results ---" ++ [newline]) w in
      let w := to_cout (lit "Type" ++ [tab; tab; tab] ++ lit "Value" ++ [newline]) w in
      let w := to_cout (lit "----------------------------------" ++ [newline]) w in
      let w := print_tokens output_tokens w in
      let w := to_cout ([newline] ++ lit "--- README Notes (Project Requirement) ---" ++ [newline]) w in
      let w := to_cout (lit "This Lexical Analyzer uses a State Machine implemented in C++ to simulate a DFA." ++ [newline]) w in
      let w := to_cout (lit "The logic clearly demonstrates the application of Finite Automata to language recognition." ++ [newline]) w in
      Ok (0%Z, w)
  end.

(** ** Vocabulary of the proofs *)

Definition alnum (c : ascii) : bool := isLetter c || isDigit c.

(** The leading character of a two-character relational operator. *)
Definition relop_lead (c : ascii) : bool :=
  (c ==c "=") || (c ==c "<") || (c ==c ">").

Definition single_char (c : ascii) : bool :=
  to_bool (set_count Ascii.eqb SINGLE_CHAR_TOKENS c).

(** The longest prefix of [l] whose characters all satisfy [p], and what
    follows it. *)
Fixpoint take_while (p : ascii -> bool) (l : cstring) : cstring :=
  match l with
  | c :: l' => if p c then c :: take_while p l' else []
  | [] => []
  end.

Fixpoint drop_while (p : ascii -> bool) (l : cstring) : cstring :=
  match l with
  | c :: l' => if p c then drop_while p l' else l
  | [] => []
  end.

(** The token pushed when the identifier branch accepts [lexeme]. *)
Definition word_token (lexeme : cstring) : Token :=
  if isKeyword lexeme then tok "KEYWORD" lexeme else tok "IDENTIFIER" lexeme.

(** The token pushed for a character that forms a token on its own. *)
Definition lone_token (c : ascii) : Token :=
  if (c ==c "+") || (c ==c "-") || (c ==c "*") then tok "ARITHMETIC_OPERATOR" [c]
  else if c ==c "=" then tok "ASSIGNMENT_OPERATOR" [c]
  else if single_char c then tok "DELIMITER" [c]
  else tok "ERROR" [c].

(** [c], followed by [rest], opens a two-character relational operator. *)
Definition pairs_up (c : ascii) (rest : cstring) : bool :=
  relop_lead c && match rest with d :: _ => d ==c "=" | [] => false end.

(** [Lex suf toks]: scanning the text [suf] from its first character, in
    the start state, appends [toks].  One constructor per path through the
    body of the outer loop. *)
Inductive Lex : cstring -> list Token -> Prop :=
| Lex_end : Lex [] []
| Lex_space c rest toks :
    isWhitespace c = true ->
    Lex rest toks ->
    Lex (c :: rest) toks
| Lex_word c rest toks :
    isWhitespace c = false -> isLetter c = true ->
    Lex (drop_while alnum rest) toks ->
    Lex (c :: rest) (word_token (c :: take_while alnum rest) :: toks)
| Lex_number c rest toks :
    isWhitespace c = false -> isLetter c = false -> isDigit c = true ->
    Lex (drop_while isDigit rest) toks ->
    Lex (c :: rest) (tok "INTEGER" (c :: take_while isDigit rest) :: toks)
| Lex_relop c rest toks :
    relop_lead c = true ->
    Lex rest toks ->
    Lex (c :: "="%char :: rest) (tok "RELATIONAL_OPERATOR" [c; "="%char] :: toks)
| Lex_lone c rest toks :
    isWhitespace c = false -> isLetter c = false -> isDigit c = false ->
    pairs_up c rest = false ->
    Lex rest toks ->
    Lex (c :: rest) (lone_token c :: toks).

(** [weave [g0; g1; ...; gn] [l1; ...; ln]] is [g0 ++ l1 ++ g1 ++ ... ++ ln ++ gn]:
    the lexemes with the gaps put back around them. *)
Fixpoint weave (gaps lexemes : list cstring) : cstring :=
  match gaps, lexemes with
  | g :: gaps', l :: lexemes' => g ++ l ++ weave gaps' lexemes'
  | g :: _, [] => g
  | [], _ => []
  end.

(** ** Vocabulary of the statements *)

(** The text is short enough for the [int] cursor of the scanner: it has
    fewer than 2^31 characters. *)
Definition fits_int (s : cstring) : Prop := (len s <= INT_MAX)%Z.

(** Every DELIMITER token of every run is one character out of [chars]. *)
Definition delimiters_within (chars : list ascii) : Prop :=
  forall src toks t,
    lexicalAnalysis src = Ok toks -> In t toks -> type t = lit "DELIMITER" ->
    exists c, value t = [c] /\ In c chars.

(** Every lexeme has length one or two, two only for RELATIONAL_OPERATOR. *)
Definition short_lexemes (toks : list Token) : Prop :=
  Forall (fun t =>
            (length (value t) = 1 \/ length (value t) = 2) /\
            (length (value t) = 2 -> type t = lit "RELATIONAL_OPERATOR"))
         toks.

(** What the scanner guarantees of the lexeme of one token: it is not
    empty; outside the accumulated kinds it has two characters for
    RELATIONAL_OPERATOR and one character otherwise. *)
Definition lexeme_shape (t : Token) : Prop :=
  1 <= length (value t) /\
  (In (type t) [lit "KEYWORD"; lit "IDENTIFIER"; lit "INTEGER"] \/
   (type t = lit "RELATIONAL_OPERATOR" /\ length (value t) = 2) \/
   (In (type t) [lit "ARITHMETIC_OPERATOR"; lit "ASSIGNMENT_OPERATOR";
                 lit "DELIMITER"; lit "ERROR"] /\ length (value t) = 1)).

(** What one row of the table of [main] looks like. *)
Definition row (token : Token) : cstring :=
  type token ++ (if length (type token) <? 8 then [tab] else [])
  ++ [tab; tab] ++ value token ++ [newline].

(** The lexemes written out one after the other, a space after each. *)
Definition unwords (lexemes : list cstring) : cstring :=
  concat (map (fun l => l ++ [" "%char]) lexemes).

(** The eight kinds of token. *)
Definition KINDS : list cstring :=
  [ lit "KEYWORD"; lit "IDENTIFIER"; lit "INTEGER"; lit "RELATIONAL_OPERATOR";
    lit "ARITHMETIC_OPERATOR"; lit "ASSIGNMENT_OPERATOR"; lit "DELIMITER";
    lit "ERROR" ].

(** A fact about one character is a finite check over the 256 of them. *)
Ltac by_cases_on_char c :=
  destruct c as [[] [] [] [] [] [] [] []]; vm_compute; intuition congruence.

(** * Proofs *)

(** The scanner runs: the text [x1 = 42;] of the specification. *)
Example run_x1 :
  lexicalAnalysis (lit "x1 = 42;") =
  Ok [tok "IDENTIFIER" (lit "x1"); tok "ASSIGNMENT_OPERATOR" (lit "=");
      tok "INTEGER" (lit "42"); tok "DELIMITER" (lit ";")].
Proof. vm_compute. reflexivity. Qed.

(** ** Facts about characters *)

Lemma letter_not_space c : isLetter c = true -> isWhitespace c = false.
Proof. by_cases_on_char c. Qed.

Lemma digit_not_space c : isDigit c = true -> isWhitespace c = false.
Proof. by_cases_on_char c. Qed.

Lemma letter_not_digit c : isLetter c = true -> isDigit c = false.
Proof. by_cases_on_char c. Qed.

Lemma single_not_space c : single_char c = true -> isWhitespace c = false.
Proof. by_cases_on_char c. Qed.

Lemma single_not_alnum c : single_char c = true -> alnum c = false.
Proof. by_cases_on_char c. Qed.

Lemma relop_lead_single c : relop_lead c = true -> single_char c = true.
Proof. by_cases_on_char c. Qed.

Lemma relop_lead_In c : relop_lead c = true <-> In c ["="; "<"; ">"]%char.
Proof.
  unfold relop_lead. rewrite !orb_true_iff, !Ascii.eqb_eq. simpl.
  intuition congruence.
Qed.

Lemma single_char_In c : single_char c = true <-> In c SINGLE_CHAR_TOKENS.
Proof.
  split.
  - destruct c as [[] [] [] [] [] [] [] []]; vm_compute; intuition congruence.
  - intros H. repeat (destruct H as [<- | H]; [reflexivity|]). destruct H.
Qed.

Lemma isWhitespace_In c :
  isWhitespace c = true <-> In c [" "; "009"; "010"; "013"]%char.
Proof.
  unfold isWhitespace. rewrite !orb_true_iff, !Ascii.eqb_eq. simpl.
  intuition congruence.
Qed.

Lemma cstring_eqb_eq a b : cstring_eqb a b = true <-> a = b.
Proof. unfold cstring_eqb. destruct (list_eq_dec ascii_dec a b); intuition congruence. Qed.

Lemma to_bool_count_In {A : Type} (eqb : A -> A -> bool) (s : list A) (x : A) :
  (forall a b, eqb a b = true <-> a = b) ->
  to_bool (set_count eqb s x) = true <-> In x s.
Proof.
  intros Heq. unfold to_bool, set_count. induction s as [|y s IH]; simpl.
  - intuition congruence.
  - destruct (eqb x y) eqn:E; simpl.
    + apply Heq in E. intuition.
    + rewrite IH. split; [tauto|]. intros [->|H]; [|exact H].
      assert (eqb x x = true) by (apply Heq; reflexivity). congruence.
Qed.

Lemma isKeyword_In lexeme : isKeyword lexeme = true <-> In lexeme KEYWORDS.
Proof. apply to_bool_count_In, cstring_eqb_eq. Qed.

(** ** Maximal runs *)

Lemma take_drop_while p l : take_while p l ++ drop_while p l = l.
Proof. induction l as [|c l IH]; simpl; [|destruct (p c); simpl; rewrite ?IH]; reflexivity. Qed.

Lemma take_while_all p l : Forall (fun c => p c = true) (take_while p l).
Proof. induction l as [|c l IH]; simpl; [|destruct (p c) eqn:E]; auto. Qed.

Lemma drop_while_head p l :
  match drop_while p l with c :: _ => p c = false | [] => True end.
Proof. induction l as [|c l IH]; simpl; [|destruct (p c) eqn:E]; auto. Qed.

Lemma drop_while_length p l : length (drop_while p l) <= length l.
Proof. induction l as [|c l IH]; simpl; [|destruct (p c); simpl]; lia. Qed.

Lemma take_while_stop p l c m :
  p c = false -> take_while p (l ++ c :: m) = take_while p l.
Proof.
  intros Hc. induction l as [|d l IH]; simpl.
  - now rewrite Hc.
  - destruct (p d); [now rewrite IH | reflexivity].
Qed.

Lemma drop_while_stop p l c m :
  p c = false -> drop_while p (l ++ c :: m) = drop_while p l ++ c :: m.
Proof.
  intros Hc. induction l as [|d l IH]; simpl.
  - now rewrite Hc.
  - destruct (p d); [exact IH | reflexivity].
Qed.

(** ** Lengths and machine integers *)

Lemma len_app (a b : cstring) : len (a ++ b) = (len a + len b)%Z.
Proof. unfold len. rewrite length_app. lia. Qed.

Lemma len_cons c (l : cstring) : len (c :: l) = (len l + 1)%Z.
Proof. unfold len. simpl length. lia. Qed.

Lemma len_nil : len [] = 0%Z.
Proof. reflexivity. Qed.

Lemma len_nonneg (l : cstring) : (0 <= len l)%Z.
Proof. unfold len. lia. Qed.

Lemma to_nat_len (l : cstring) : Z.to_nat (len l) = length l.
Proof. unfold len. apply Nat2Z.id. Qed.

Lemma to_size_t_small i : (0 <= i <= INT_MAX)%Z -> to_size_t i = i.
Proof. unfold to_size_t, INT_MAX. intros H. apply Z.mod_small. lia. Qed.

Lemma int_add_fits a b :
  (0 <= a)%Z -> (0 <= b)%Z -> (a + b <= INT_MAX)%Z -> int_add a b = Ok (a + b)%Z.
Proof.
  intros Ha Hb Hab. unfold int_add.
  replace ((INT_MIN <=? a + b)%Z) with true
    by (symmetry; apply Z.leb_le; unfold INT_MIN; lia).
  replace ((a + b <=? INT_MAX)%Z) with true by (symmetry; now apply Z.leb_le).
  reflexivity.
Qed.

Lemma int_add_cases a b :
  (0 <= a)%Z -> (0 <= b)%Z ->
  (int_add a b = Overflow /\ (INT_MAX < a + b)%Z) \/
  (int_add a b = Ok (a + b)%Z /\ (a + b <= INT_MAX)%Z).
Proof.
  intros Ha Hb. destruct (Z_le_gt_dec (a + b) INT_MAX) as [Hle|Hgt].
  - right. split; [now apply int_add_fits | exact Hle].
  - left. split; [|lia]. unfold int_add.
    replace ((a + b <=? INT_MAX)%Z) with false
      by (symmetry; apply Z.leb_gt; lia).
    now rewrite andb_false_r.
Qed.

Lemma fits_int_prefix (pre suf : cstring) :
  fits_int (pre ++ suf) -> (0 <= len pre <= INT_MAX)%Z.
Proof.
  unfold fits_int. rewrite len_app.
  pose proof (len_nonneg pre). pose proof (len_nonneg suf). lia.
Qed.

Lemma fits_int_shorter (a b : cstring) :
  length a <= length b -> fits_int b -> fits_int a.
Proof. unfold fits_int, len. lia. Qed.

Lemma fits_int_app (a b : cstring) :
  fits_int (a ++ b) -> fits_int a /\ fits_int b.
Proof.
  intros H. split; apply (@fits_int_shorter _ (a ++ b)); auto;
    rewrite length_app; lia.
Qed.

Lemma fits_int_dec (s : cstring) : {fits_int s} + {~ fits_int s}.
Proof. apply Z_le_dec. Qed.

(** ** Reading at the cursor *)

Lemma nth_error_cursor (pre : cstring) c rest :
  nth_error (pre ++ c :: rest) (length pre) = Some c.
Proof. rewrite nth_error_app2, Nat.sub_diag by lia. reflexivity. Qed.

Lemma at_index_inside s i c :
  (0 <= i <= INT_MAX)%Z -> nth_error s (Z.to_nat i) = Some c ->
  at_index s i = Ok c.
Proof. intros Hi H. unfold at_index. now rewrite to_size_t_small, H. Qed.

Lemma at_index_cursor (pre : cstring) c rest :
  fits_int (pre ++ c :: rest) ->
  at_index (pre ++ c :: rest) (len pre) = Ok c.
Proof.
  intros Hfit. apply at_index_inside; [now apply fits_int_prefix with (c :: rest)|].
  rewrite to_nat_len. apply nth_error_cursor.
Qed.

Lemma index_lt_length_inside i s :
  (0 <= i <= INT_MAX)%Z -> index_lt_length i s = (i <? len s)%Z.
Proof. intros Hi. unfold index_lt_length. now rewrite to_size_t_small. Qed.

Lemma index_lt_length_cursor (pre suf : cstring) :
  fits_int (pre ++ suf) ->
  index_lt_length (len pre) (pre ++ suf)
  = match suf with [] => false | _ :: _ => true end.
Proof.
  intros Hfit. rewrite index_lt_length_inside by now apply fits_int_prefix with suf.
  rewrite len_app. destruct suf as [|c suf].
  - rewrite len_nil. apply Z.ltb_ge. lia.
  - rewrite len_cons. pose proof (len_nonneg suf). apply Z.ltb_lt. lia.
Qed.

Lemma cursor_split (s : cstring) i c :
  nth_error s i = Some c ->
  s = firstn i s ++ c :: skipn (S i) s /\ length (firstn i s) = i.
Proof.
  intros H. assert (i < length s) by (apply nth_error_Some; congruence).
  split; [|rewrite length_firstn; lia].
  revert i H H0. induction s as [|d s IH]; intros [|i] H H0; simpl in *; try lia.
  - congruence.
  - f_equal. apply IH; [exact H | lia].
Qed.

Lemma while_loop_S {S : Type} fuel (cond : S -> result bool) body st :
  while_loop (Datatypes.S fuel) cond body st
  = (b <- cond st ;;
     if b then st' <- body st ;; while_loop fuel cond body st' else Ok st).
Proof. reflexivity. Qed.

(** ** The inner loops *)

Section Accumulate.

Variable p : ascii -> bool.
Variable cond : cstring -> Accum -> result bool.
Hypothesis cond_spec : forall src i lexeme,
  (0 <= i <= INT_MAX)%Z ->
  cond src (i, lexeme) =
  Ok (match nth_error src (Z.to_nat i) with Some c => p c | None => false end).

(** From the cursor the loop appends the longest run of [p]-characters and
    stops on the first other character, or at the end of the text. *)
Lemma accumulate_run : forall suf pre lexeme fuel,
  length suf < fuel ->
  fits_int (pre ++ suf) ->
  while_loop fuel (cond (pre ++ suf)) (accum_body (pre ++ suf)) (len pre, lexeme)
  = Ok ((len pre + len (take_while p suf))%Z, lexeme ++ take_while p suf).
Proof.
  induction suf as [|c suf IH]; intros pre lexeme [|fuel] Hf Hfit;
    simpl in Hf; try lia; rewrite while_loop_S;
    rewrite cond_spec by (now apply fits_int_prefix in Hfit);
    rewrite to_nat_len.
  - rewrite app_nil_r.
    replace (nth_error pre (length pre)) with (@None ascii)
      by (symmetry; apply nth_error_None; lia).
    cbn [bind take_while]. now rewrite len_nil, Z.add_0_r, app_nil_r.
  - rewrite nth_error_cursor. cbn [bind take_while]. destruct (p c) eqn:Hp.
    + unfold accum_body. rewrite at_index_cursor by exact Hfit. cbn [bind].
      assert (Hlen : (len pre + 1)%Z = len (pre ++ [c]))
        by (rewrite len_app, len_cons, len_nil; lia).
      assert (Hsrc : pre ++ c :: suf = (pre ++ [c]) ++ suf)
        by (now rewrite <- app_assoc).
      rewrite int_add_fits.
      * cbn [bind]. rewrite Hlen. rewrite Hsrc in Hfit |- *.
        rewrite IH by (auto; lia).
        rewrite len_cons, <- Hlen, <- app_assoc. simpl app. do 2 f_equal. lia.
      * apply len_nonneg.
      * lia.
      * rewrite Hlen. rewrite Hsrc in Hfit. now apply fits_int_prefix in Hfit.
    + now rewrite len_nil, Z.add_0_r, app_nil_r.
Qed.

End Accumulate.

Lemma ident_cond_spec src i (lexeme : cstring) :
  (0 <= i <= INT_MAX)%Z ->
  ident_cond src (i, lexeme) =
  Ok (match nth_error src (Z.to_nat i) with Some c => alnum c | None => false end).
Proof.
  intros Hi. unfold ident_cond, and_then, or_else, at_index. cbn [fst bind].
  rewrite index_lt_length_inside, to_size_t_small by exact Hi.
  destruct (Z.ltb_spec i (len src)) as [Hlt|Hge].
  - destruct (nth_error src (Z.to_nat i)) as [c|] eqn:E.
    + cbn [bind]. unfold alnum. now destruct (isLetter c).
    + apply nth_error_None in E. unfold len in Hlt. lia.
  - replace (nth_error src (Z.to_nat i)) with (@None ascii); [reflexivity|].
    symmetry. apply nth_error_None. unfold len in Hge. lia.
Qed.

Lemma digit_cond_spec src i (lexeme : cstring) :
  (0 <= i <= INT_MAX)%Z ->
  digit_cond src (i, lexeme) =
  Ok (match nth_error src (Z.to_nat i) with Some c => isDigit c | None => false end).
Proof.
  intros Hi. unfold digit_cond, and_then, at_index. cbn [fst bind].
  rewrite index_lt_length_inside, to_size_t_small by exact Hi.
  destruct (Z.ltb_spec i (len src)) as [Hlt|Hge].
  - destruct (nth_error src (Z.to_nat i)) as [c|] eqn:E; [reflexivity|].
    apply nth_error_None in E. unfold len in Hlt. lia.
  - replace (nth_error src (Z.to_nat i)) with (@None ascii); [reflexivity|].
    symmetry. apply nth_error_None. unfold len in Hge. lia.
Qed.

(** Where the next position is still an [int], the guard of the
    two-character branch does not fail; it holds exactly when a relational
    lead is followed by ['=']. *)
Lemma lookahead_cond_spec src i c :
  (0 <= i)%Z -> (i + 1 <= INT_MAX)%Z ->
  lookahead_cond src i c =
  Ok (relop_lead c &&
      match nth_error src (Z.to_nat (i + 1)) with
      | Some d => d ==c "="
      | None => false
      end).
Proof.
  intros Hi Hj. unfold lookahead_cond, and_then. fold (relop_lead c).
  cbn [bind]. destruct (relop_lead c); cbn [andb]; [|reflexivity].
  rewrite int_add_fits by lia. cbn [bind].
  rewrite index_lt_length_inside by lia. unfold at_index.
  rewrite to_size_t_small by lia.
  destruct (Z.ltb_spec (i + 1) (len src)) as [Hlt|Hge].
  - destruct (nth_error src (Z.to_nat (i + 1))) as [d|] eqn:E; [reflexivity|].
    apply nth_error_None in E. unfold len in Hlt. lia.
  - replace (nth_error src (Z.to_nat (i + 1))) with (@None ascii); [reflexivity|].
    symmetry. apply nth_error_None. unfold len in Hge. lia.
Qed.

(** ** One iteration of the outer loop, path by path *)

Lemma nth_error_next (pre : cstring) c rest :
  nth_error (pre ++ c :: rest) (length pre + 1) = nth_error rest 0.
Proof.
  rewrite nth_error_app2 by lia.
  replace (length pre + 1 - length pre) with 1 by lia. reflexivity.
Qed.

Lemma nth_error_after_cursor (pre : cstring) c rest :
  nth_error (pre ++ c :: rest) (Z.to_nat (len pre + 1)) = nth_error rest 0.
Proof.
  replace (Z.to_nat (len pre + 1)) with (length pre + 1) by (unfold len; lia).
  apply nth_error_next.
Qed.

(** The positions an iteration computes from the cursor are [int]s. *)
Lemma cursor_step (pre : cstring) c rest :
  fits_int (pre ++ c :: rest) ->
  (0 <= len pre)%Z /\ (len pre + 1 + len rest <= INT_MAX)%Z /\ (0 <= len rest)%Z.
Proof.
  unfold fits_int. rewrite len_app, len_cons.
  pose proof (len_nonneg pre). pose proof (len_nonneg rest). lia.
Qed.

Lemma body_space fuel pre c rest acc :
  fits_int (pre ++ c :: rest) ->
  isWhitespace c = true ->
  loop_body fuel (pre ++ c :: rest) (mkState (len pre) acc)
  = Ok (mkState (len pre + 1) acc).
Proof.
  intros Hfit Hw. destruct (cursor_step _ _ _ Hfit) as (Hpos & Hmax & Hrest). unfold loop_body. cbn [current_index tokens].
  rewrite at_index_cursor by exact Hfit. cbn [bind]. rewrite Hw.
  now rewrite int_add_fits by lia.
Qed.

Lemma body_word fuel pre c rest acc :
  fits_int (pre ++ c :: rest) ->
  isWhitespace c = false -> isLetter c = true -> length rest < fuel ->
  loop_body fuel (pre ++ c :: rest) (mkState (len pre) acc)
  = Ok (mkState (len pre + 1 + len (take_while alnum rest))
                (acc ++ [word_token (c :: take_while alnum rest)])).
Proof.
  intros Hfit Hw Hl Hf. destruct (cursor_step _ _ _ Hfit) as (Hpos & Hmax & Hrest). unfold loop_body.
  cbn [current_index tokens]. rewrite at_index_cursor by exact Hfit.
  cbn [bind]. rewrite Hw, Hl. rewrite int_add_fits by lia. cbn [bind].
  assert (Hsrc : pre ++ c :: rest = (pre ++ [c]) ++ rest) by (now rewrite <- app_assoc).
  assert (Hlen : (len pre + 1)%Z = len (pre ++ [c]))
    by (rewrite len_app, len_cons, len_nil; lia).
  rewrite Hsrc in Hfit |- *. rewrite Hlen.
  rewrite (@accumulate_run alnum ident_cond ident_cond_spec) by assumption.
  cbn [bind]. simpl app.
  unfold word_token, push_back. now destruct (isKeyword (c :: take_while alnum rest)).
Qed.

Lemma body_number fuel pre c rest acc :
  fits_int (pre ++ c :: rest) ->
  isWhitespace c = false -> isLetter c = false -> isDigit c = true ->
  length rest < fuel ->
  loop_body fuel (pre ++ c :: rest) (mkState (len pre) acc)
  = Ok (mkState (len pre + 1 + len (take_while isDigit rest))
                (acc ++ [tok "INTEGER" (c :: take_while isDigit rest)])).
Proof.
  intros Hfit Hw Hl Hd Hf. destruct (cursor_step _ _ _ Hfit) as (Hpos & Hmax & Hrest). unfold loop_body.
  cbn [current_index tokens]. rewrite at_index_cursor by exact Hfit.
  cbn [bind]. rewrite Hw, Hl, Hd. rewrite int_add_fits by lia. cbn [bind].
  assert (Hsrc : pre ++ c :: rest = (pre ++ [c]) ++ rest) by (now rewrite <- app_assoc).
  assert (Hlen : (len pre + 1)%Z = len (pre ++ [c]))
    by (rewrite len_app, len_cons, len_nil; lia).
  rewrite Hsrc in Hfit |- *. rewrite Hlen.
  rewrite (@accumulate_run isDigit digit_cond digit_cond_spec) by assumption.
  reflexivity.
Qed.

Lemma body_relop fuel pre c rest acc :
  fits_int (pre ++ c :: "="%char :: rest) ->
  relop_lead c = true ->
  loop_body fuel (pre ++ c :: "="%char :: rest) (mkState (len pre) acc)
  = Ok (mkState (len pre + 2)
                (acc ++ [tok "RELATIONAL_OPERATOR" [c; "="%char]])).
Proof.
  intros Hfit Hr. destruct (cursor_step _ _ _ Hfit) as (Hpos & Hmax & Hrest). rewrite len_cons in Hmax.
  pose proof (len_nonneg rest) as Hrest'.
  unfold loop_body. cbn [current_index tokens].
  rewrite at_index_cursor by exact Hfit. cbn [bind].
  pose proof (relop_lead_single c Hr) as Hs.
  rewrite (single_not_space c Hs).
  pose proof (single_not_alnum c Hs) as Ha. unfold alnum in Ha.
  apply orb_false_iff in Ha as [-> ->].
  fold (single_char c). rewrite Hs, lookahead_cond_spec, Hr by lia.
  rewrite nth_error_after_cursor. cbn [bind nth_error andb].
  rewrite Ascii.eqb_refl. rewrite int_add_fits by lia. cbn [bind].
  unfold at_index. rewrite to_size_t_small by lia.
  rewrite nth_error_after_cursor. cbn [nth_error bind].
  now rewrite int_add_fits by lia.
Qed.

Lemma body_lone fuel pre c rest acc :
  fits_int (pre ++ c :: rest) ->
  isWhitespace c = false -> isLetter c = false -> isDigit c = false ->
  pairs_up c rest = false ->
  loop_body fuel (pre ++ c :: rest) (mkState (len pre) acc)
  = Ok (mkState (len pre + 1) (acc ++ [lone_token c])).
Proof.
  intros Hfit Hw Hl Hd Hp. destruct (cursor_step _ _ _ Hfit) as (Hpos & Hmax & Hrest). unfold loop_body.
  cbn [current_index tokens]. rewrite at_index_cursor by exact Hfit.
  cbn [bind]. rewrite Hw, Hl, Hd. fold (single_char c).
  unfold lone_token, push_back.
  destruct (single_char c) eqn:Hs.
  - rewrite lookahead_cond_spec, nth_error_after_cursor by lia.
    replace (relop_lead c && _) with (pairs_up c rest)
      by (unfold pairs_up; now destruct rest).
    rewrite Hp. cbn [bind]. rewrite int_add_fits by lia. cbn [bind].
    destruct ((c ==c "+") || (c ==c "-") || (c ==c "*")); [reflexivity|].
    simpl length. rewrite Nat.eqb_refl, andb_true_r. now destruct (c ==c "=").
  - rewrite int_add_fits by lia. cbn [bind].
    destruct ((c ==c "+") || (c ==c "-") || (c ==c "*")) eqn:E1;
      [|destruct (c ==c "=") eqn:E2]; [exfalso..|reflexivity].
    + revert Hs E1. clear. by_cases_on_char c.
    + revert Hs E2. clear. by_cases_on_char c.
Qed.

(** ** The outer loop follows [Lex] *)

Lemma main_cond_cursor (pre suf : cstring) acc :
  fits_int (pre ++ suf) ->
  main_cond (pre ++ suf) (mkState (len pre) acc)
  = Ok (match suf with [] => false | _ :: _ => true end).
Proof.
  intros Hfit. unfold main_cond. cbn [current_index].
  now rewrite index_lt_length_cursor.
Qed.

Lemma run_Lex suf toks :
  Lex suf toks ->
  forall pre acc fuel inner,
    length suf < fuel -> length suf < inner ->
    fits_int (pre ++ suf) ->
    while_loop fuel (main_cond (pre ++ suf)) (loop_body inner (pre ++ suf))
      (mkState (len pre) acc)
    = Ok (mkState (len (pre ++ suf)) (acc ++ toks)).
Proof.
  induction 1 as [ | c rest toks Hw _ IH | c rest toks Hw Hl _ IH
                 | c rest toks Hw Hl Hd _ IH | c rest toks Hr _ IH
                 | c rest toks Hw Hl Hd Hp _ IH ];
    intros pre acc [|fuel] inner Hf Hi Hfit; simpl in Hf, Hi; try lia;
    rewrite while_loop_S, main_cond_cursor by exact Hfit; cbn [bind].
  - now rewrite !app_nil_r.
  - rewrite body_space by assumption. cbn [bind].
    replace (pre ++ c :: rest) with ((pre ++ [c]) ++ rest) in Hfit |- *
      by (now rewrite <- app_assoc).
    replace (len pre + 1)%Z with (len (pre ++ [c]))
      by (rewrite len_app, len_cons, len_nil; lia).
    apply IH; auto; lia.
  - rewrite body_word by (auto; lia). cbn [bind].
    set (run := take_while alnum rest).
    assert (Hsplit : pre ++ c :: rest = (pre ++ c :: run) ++ drop_while alnum rest).
    { rewrite <- app_assoc. simpl. unfold run. now rewrite take_drop_while. }
    rewrite Hsplit in Hfit |- *.
    replace (len pre + 1 + len run)%Z with (len (pre ++ c :: run))
      by (rewrite len_app, len_cons; lia).
    pose proof (drop_while_length alnum rest).
    rewrite IH by (auto; lia). rewrite <- !app_assoc. reflexivity.
  - rewrite body_number by (auto; lia). cbn [bind].
    set (run := take_while isDigit rest).
    assert (Hsplit : pre ++ c :: rest = (pre ++ c :: run) ++ drop_while isDigit rest).
    { rewrite <- app_assoc. simpl. unfold run. now rewrite take_drop_while. }
    rewrite Hsplit in Hfit |- *.
    replace (len pre + 1 + len run)%Z with (len (pre ++ c :: run))
      by (rewrite len_app, len_cons; lia).
    pose proof (drop_while_length isDigit rest).
    rewrite IH by (auto; lia). rewrite <- !app_assoc. reflexivity.
  - rewrite body_relop by assumption. cbn [bind].
    replace (pre ++ c :: "="%char :: rest) with ((pre ++ [c; "="%char]) ++ rest)
      in Hfit |- * by (now rewrite <- app_assoc).
    replace (len pre + 2)%Z with (len (pre ++ [c; "="%char]))
      by (rewrite len_app, !len_cons, len_nil; lia).
    rewrite IH by (auto; lia). rewrite <- !app_assoc. reflexivity.
  - rewrite body_lone by assumption. cbn [bind].
    replace (pre ++ c :: rest) with ((pre ++ [c]) ++ rest) in Hfit |- *
      by (now rewrite <- app_assoc).
    replace (len pre + 1)%Z with (len (pre ++ [c]))
      by (rewrite len_app, len_cons, len_nil; lia).
    rewrite IH by (auto; lia). rewrite <- !app_assoc. reflexivity.
Qed.

Lemma Lex_total_upto n : forall suf, length suf <= n -> exists toks, Lex suf toks.
Proof.
  induction n as [|n IH]; intros [|c rest] Hn; simpl in Hn; try lia;
    try (exists []; apply Lex_end).
  assert (Hrun : forall p, length (drop_while p rest) <= n)
    by (intros p; pose proof (drop_while_length p rest); lia).
  destruct (isWhitespace c) eqn:Hw.
  { destruct (IH rest) as [toks Ht]; [lia|].
    eexists. apply Lex_space; eauto. }
  destruct (isLetter c) eqn:Hl.
  { destruct (IH _ (Hrun alnum)) as [toks Ht].
    eexists. apply Lex_word; eauto. }
  destruct (isDigit c) eqn:Hd.
  { destruct (IH _ (Hrun isDigit)) as [toks Ht].
    eexists. apply Lex_number; eauto. }
  destruct (pairs_up c rest) eqn:Hp.
  - unfold pairs_up in Hp. apply andb_true_iff in Hp as [Hr He].
    destruct rest as [|d rest]; [discriminate|]. apply Ascii.eqb_eq in He. subst d.
    destruct (IH rest) as [toks Ht]; [simpl in Hn; lia|].
    eexists. apply Lex_relop; eauto.
  - destruct (IH rest) as [toks Ht]; [lia|].
    eexists. apply Lex_lone; eauto.
Qed.

Lemma Lex_total suf : exists toks, Lex suf toks.
Proof. apply (@Lex_total_upto (length suf)). lia. Qed.

Lemma within_Lex fuel src toks :
  Lex src toks -> fits_int src -> length src < fuel ->
  lexicalAnalysis_within fuel src = Ok toks.
Proof.
  intros HL Hfit Hf. unfold lexicalAnalysis_within.
  pose proof (@run_Lex _ _ HL [] [] fuel fuel Hf Hf Hfit) as Hrun.
  simpl app in Hrun. rewrite len_nil in Hrun. now rewrite Hrun.
Qed.

Lemma lexicalAnalysis_Lex src toks :
  Lex src toks -> fits_int src -> lexicalAnalysis src = Ok toks.
Proof. intros HL Hfit. apply within_Lex; auto. Qed.

(** ** Beyond the range of [int] *)

(** A loop whose body either overflows or moves on by a measure that its
    budget exceeds ends in an overflow or leaves through its condition. *)
Lemma while_loop_measure {S : Type} (I : S -> Prop) (m : S -> nat)
    (cond : S -> result bool) (body : S -> result S) :
  (forall st, I st -> exists b, cond st = Ok b) ->
  (forall st, I st -> cond st = Ok true ->
     body st = Overflow \/
     exists st', body st = Ok st' /\ I st' /\ m st' < m st) ->
  forall fuel st, I st -> m st < fuel ->
    while_loop fuel cond body st = Overflow \/
    exists st', while_loop fuel cond body st = Ok st' /\ I st' /\
                cond st' = Ok false.
Proof.
  intros Hcond Hbody. induction fuel as [|fuel IH]; intros st HI Hm; [lia|].
  rewrite while_loop_S. destruct (Hcond st HI) as [b Hb]. rewrite Hb.
  cbn [bind]. destruct b.
  - destruct (Hbody st HI Hb) as [-> | (st' & -> & HI' & Hlt)]; [now left|].
    cbn [bind]. apply IH; [exact HI' | lia].
  - right. now exists st.
Qed.

Lemma accum_loop_result p (cond : cstring -> Accum -> result bool) :
  (forall src i lexeme,
      (0 <= i <= INT_MAX)%Z ->
      cond src (i, lexeme) =
      Ok (match nth_error src (Z.to_nat i) with Some c => p c | None => false end)) ->
  forall fuel src (st0 : Accum),
    (0 <= fst st0 <= INT_MAX)%Z -> (INT_MAX < Z.of_nat fuel)%Z ->
    while_loop fuel (cond src) (accum_body src) st0 = Overflow \/
    exists st, while_loop fuel (cond src) (accum_body src) st0 = Ok st /\
               (fst st0 <= fst st <= INT_MAX)%Z.
Proof.
  intros Hspec fuel src st0 Hi0 Hfuel.
  destruct (@while_loop_measure Accum
              (fun st => (fst st0 <= fst st <= INT_MAX)%Z)
              (fun st => Z.to_nat (INT_MAX - fst st))
              (cond src) (accum_body src)) with (fuel := fuel) (st := st0)
    as [H | (st & H & HI & _)].
  - intros [i l] HI. cbn [fst] in HI. rewrite Hspec by lia. now eexists.
  - intros [i l] HI Hc. cbn [fst] in HI. rewrite Hspec in Hc by lia.
    destruct (nth_error src (Z.to_nat i)) as [c|] eqn:E; [|discriminate].
    unfold accum_body. rewrite (@at_index_inside src i c) by (auto; lia).
    cbn [bind].
    destruct (@int_add_cases i 1) as [[-> _] | [-> Hle]]; try lia; [now left|].
    right. eexists. split; [reflexivity|]. cbn [fst]. lia.
  - lia.
  - lia.
  - now left.
  - right. now exists st.
Qed.

Lemma lookahead_cond_result src i c :
  (0 <= i <= INT_MAX)%Z ->
  lookahead_cond src i c = Overflow \/
  lookahead_cond src i c = Ok false \/
  (lookahead_cond src i c = Ok true /\ (i + 1 <= INT_MAX)%Z /\
   exists d, nth_error src (Z.to_nat (i + 1)) = Some d).
Proof.
  intros Hi. destruct (@int_add_cases i 1) as [[Hov _] | [_ Hle]]; try lia.
  - unfold lookahead_cond, and_then. rewrite Hov. cbn [bind].
    destruct ((c ==c "=") || (c ==c "<") || (c ==c ">")); auto.
  - rewrite lookahead_cond_spec by lia.
    destruct (relop_lead c); cbn [andb]; auto.
    destruct (nth_error src (Z.to_nat (i + 1))) as [d|] eqn:E; auto.
    destruct (d ==c "="); auto. right; right. repeat split; auto. now exists d.
Qed.

(** An iteration of the outer loop overflows or moves the cursor forward
    within the range of [int]. *)
Lemma loop_body_result fuel src st :
  (0 <= current_index st <= INT_MAX)%Z -> (INT_MAX < Z.of_nat fuel)%Z ->
  main_cond src st = Ok true ->
  loop_body fuel src st = Overflow \/
  exists st', loop_body fuel src st = Ok st' /\
              (current_index st < current_index st' <= INT_MAX)%Z.
Proof.
  destruct st as [i acc]. cbn [current_index]. intros Hi Hfuel Hc.
  unfold main_cond in Hc. cbn [current_index] in Hc.
  rewrite index_lt_length_inside in Hc by exact Hi.
  injection Hc as Hc. apply Z.ltb_lt in Hc.
  destruct (nth_error src (Z.to_nat i)) as [c|] eqn:E;
    [|apply nth_error_None in E; unfold len in Hc; lia].
  unfold loop_body. cbn [current_index tokens].
  rewrite (@at_index_inside src i c) by auto. cbn [bind].
  assert (Hstep : forall k : LexState -> LexState,
    (forall j, current_index (k (mkState j acc)) = j) ->
    (j <- int_add i 1 ;; Ok (k (mkState j acc))) = Overflow \/
    exists st', (j <- int_add i 1 ;; Ok (k (mkState j acc))) = Ok st' /\
                (i < current_index st' <= INT_MAX)%Z).
  { intros k Hk. destruct (@int_add_cases i 1) as [[-> _] | [-> Hle]]; try lia;
      [now left|]. right. eexists. split; [reflexivity|]. rewrite Hk. lia. }
  destruct (isWhitespace c).
  { apply (Hstep (fun s => s)). reflexivity. }
  destruct (isLetter c).
  { destruct (@int_add_cases i 1) as [[-> _] | [-> Hle]]; try lia; [now left|].
    cbn [bind].
    match goal with |- context [while_loop fuel _ _ ?st0] =>
      destruct (@accum_loop_result alnum ident_cond ident_cond_spec fuel src st0)
        as [-> | ([i' l] & -> & Hi')]
    end; cbn [fst] in *; try lia; [now left|].
    right. cbn [bind]. destruct (isKeyword l); eexists; (split; [reflexivity|]);
      cbn [current_index]; lia. }
  destruct (isDigit c).
  { destruct (@int_add_cases i 1) as [[-> _] | [-> Hle]]; try lia; [now left|].
    cbn [bind].
    match goal with |- context [while_loop fuel _ _ ?st0] =>
      destruct (@accum_loop_result isDigit digit_cond digit_cond_spec fuel src st0)
        as [-> | ([i' l] & -> & Hi')]
    end; cbn [fst] in *; try lia; [now left|].
    right. cbn [bind]. eexists. split; [reflexivity|]. cbn [current_index]. lia. }
  destruct (to_bool _).
  - destruct (@lookahead_cond_result src i c Hi) as [-> | [-> | (-> & Hle & d & Hd)]];
      [now left | | ]; cbn [bind].
    + destruct (@int_add_cases i 1) as [[-> _] | [-> Hle]]; try lia; [now left|].
      right. cbn [bind].
      destruct ((c ==c "+") || (c ==c "-") || (c ==c "*"));
        [|destruct ((c ==c "=") && (length [c] =? 1))];
        eexists; (split; [reflexivity|]); cbn [current_index]; lia.
    + rewrite int_add_fits by lia. cbn [bind].
      rewrite (@at_index_inside src (i + 1)%Z d) by (auto; lia). cbn [bind].
      destruct (@int_add_cases i 2) as [[-> _] | [-> Hle2]]; try lia; [now left|].
      right. eexists. split; [reflexivity|]. cbn [current_index]. lia.
  - apply (Hstep (fun s => mkState (current_index s)
                             (push_back acc (tok "ERROR" [c])))).
    reflexivity.
Qed.

(** On a text of 2^31 characters or more the scanner runs into a signed
    overflow of [current_index]; it does not return. *)
Lemma long_text_overflows fuel src :
  ~ fits_int src -> (INT_MAX < Z.of_nat fuel)%Z ->
  lexicalAnalysis_within fuel src = Overflow.
Proof.
  intros Hlong Hfuel. unfold lexicalAnalysis_within.
  destruct (@while_loop_measure LexState
              (fun st => (0 <= current_index st <= INT_MAX)%Z)
              (fun st => Z.to_nat (INT_MAX - current_index st))
              (main_cond src) (loop_body fuel src))
    with (fuel := fuel) (st := mkState 0 [])
    as [-> | (st' & _ & HI & Hc)].
  - intros st _. unfold main_cond. now eexists.
  - intros st HI Hc.
    destruct (@loop_body_result fuel src st HI Hfuel Hc) as [H | (st' & H & Hst')];
      [now left|].
    right. exists st'. repeat split; auto; lia.
  - cbn [current_index]. unfold INT_MAX. lia.
  - cbn [current_index]. unfold INT_MAX in *. lia.
  - reflexivity.
  - exfalso. apply Hlong. unfold main_cond in Hc. injection Hc as Hc.
    rewrite index_lt_length_inside in Hc by exact HI.
    apply Z.ltb_ge in Hc. unfold fits_int. lia.
Qed.

Lemma lexicalAnalysis_fits src toks :
  lexicalAnalysis src = Ok toks -> fits_int src.
Proof.
  intros H. destruct (fits_int_dec src) as [Hfit|Hlong]; [exact Hfit|].
  unfold lexicalAnalysis in H. rewrite long_text_overflows in H.
  - discriminate H.
  - exact Hlong.
  - unfold fits_int, len in Hlong. lia.
Qed.

Lemma lexicalAnalysis_inv src toks :
  lexicalAnalysis src = Ok toks -> Lex src toks.
Proof.
  intros H. pose proof (@lexicalAnalysis_fits _ _ H) as Hfit.
  destruct (Lex_total src) as [toks' HL].
  rewrite (lexicalAnalysis_Lex HL Hfit) in H. now injection H as <-.
Qed.
(** ** Properties of the token stream *)

Lemma value_word_token lexeme : value (word_token lexeme) = lexeme.
Proof. unfold word_token. now destruct (isKeyword lexeme). Qed.

Lemma type_word_token lexeme :
  type (word_token lexeme) =
  lit (if isKeyword lexeme then "KEYWORD" else "IDENTIFIER").
Proof. unfold word_token. now destruct (isKeyword lexeme). Qed.

Lemma value_lone_token c : value (lone_token c) = [c].
Proof.
  unfold lone_token.
  now destruct ((c ==c "+") || (c ==c "-") || (c ==c "*")), (c ==c "="), (single_char c).
Qed.

(** A property of single tokens that holds on every path of the loop body
    holds of every token of a stream. *)
Lemma Lex_Forall (P : Token -> Prop) :
  (forall c run, isLetter c = true -> Forall (fun d => alnum d = true) run ->
                 P (word_token (c :: run))) ->
  (forall c run, isDigit c = true -> Forall (fun d => isDigit d = true) run ->
                 P (tok "INTEGER" (c :: run))) ->
  (forall c, relop_lead c = true -> P (tok "RELATIONAL_OPERATOR" [c; "="%char])) ->
  (forall c, isWhitespace c = false -> alnum c = false -> P (lone_token c)) ->
  forall suf toks, Lex suf toks -> Forall P toks.
Proof.
  intros Hword Hnum Hrel Hlone suf toks HL.
  induction HL as [ | c rest toks Hw _ IH | c rest toks Hw Hl _ IH
                  | c rest toks Hw Hl Hd _ IH | c rest toks Hr _ IH
                  | c rest toks Hw Hl Hd Hp _ IH ];
    [constructor | exact IH | constructor; [|exact IH]..].
  - apply Hword; [exact Hl | apply take_while_all].
  - apply Hnum; [exact Hd | apply take_while_all].
  - now apply Hrel.
  - apply Hlone; [exact Hw|]. unfold alnum. now apply orb_false_iff.
Qed.

(** The lexemes use up distinct characters of the text. *)
Lemma Lex_lexemes_length suf toks :
  Lex suf toks -> length (concat (map value toks)) <= length suf.
Proof.
  induction 1 as [ | c rest toks Hw _ IH | c rest toks Hw Hl _ IH
                 | c rest toks Hw Hl Hd _ IH | c rest toks Hr _ IH
                 | c rest toks Hw Hl Hd Hp _ IH ]; simpl;
    rewrite ?value_word_token, ?value_lone_token, ?length_app; simpl; try lia.
  - rewrite <- (take_drop_while alnum rest) at 2. rewrite length_app. lia.
  - rewrite <- (take_drop_while isDigit rest) at 2. rewrite length_app. lia.
Qed.

(** The gaps between the lexemes. *)
Lemma weave_extend_gap c g gaps lexemes :
  weave ((c :: g) :: gaps) lexemes = c :: weave (g :: gaps) lexemes.
Proof. now destruct lexemes. Qed.

Lemma Lex_weave suf toks :
  Lex suf toks ->
  exists gaps,
    length gaps = S (length toks) /\
    Forall (Forall (fun c => isWhitespace c = true)) gaps /\
    weave gaps (map value toks) = suf.
Proof.
  induction 1 as [ | c rest toks Hw _ IH | c rest toks Hw Hl _ IH
                 | c rest toks Hw Hl Hd _ IH | c rest toks Hr _ IH
                 | c rest toks Hw Hl Hd Hp _ IH ].
  - exists [[]]. repeat split. repeat constructor.
  - destruct IH as ([|g gaps] & Hlen & Hall & Hweave); [discriminate|].
    exists ((c :: g) :: gaps). inversion Hall; subst. repeat split.
    + exact Hlen.
    + constructor; [constructor|]; assumption.
    + now rewrite weave_extend_gap.
  - destruct IH as (gaps & Hlen & Hall & Hweave). exists ([] :: gaps).
    simpl. rewrite Hlen, Hweave, value_word_token. repeat split; auto.
    simpl. now rewrite take_drop_while.
  - destruct IH as (gaps & Hlen & Hall & Hweave). exists ([] :: gaps).
    simpl. rewrite Hlen, Hweave. repeat split; auto.
    now rewrite take_drop_while.
  - destruct IH as (gaps & Hlen & Hall & Hweave). exists ([] :: gaps).
    simpl. rewrite Hlen, Hweave. repeat split; auto.
  - destruct IH as (gaps & Hlen & Hall & Hweave). exists ([] :: gaps).
    simpl. rewrite Hlen, Hweave, value_lone_token. repeat split; auto.
Qed.

(** A character that cannot continue a token and does not pair up with its
    successor cuts the text in two independent halves. *)
Lemma Lex_boundary c post after :
  isWhitespace c = false -> alnum c = false -> (c ==c "=") = false ->
  pairs_up c post = false ->
  Lex post after ->
  forall pre before,
    Lex pre before ->
    Lex (pre ++ c :: post) (before ++ lone_token c :: after).
Proof.
  intros Hw Ha He Hp Hpost pre before Hpre.
  pose proof Ha as Ha'. unfold alnum in Ha'. apply orb_false_iff in Ha' as [Hl Hd].
  induction Hpre as [ | c0 rest toks Hw0 _ IH | c0 rest toks Hw0 Hl0 _ IH
                    | c0 rest toks Hw0 Hl0 Hd0 _ IH | c0 rest toks Hr0 _ IH
                    | c0 rest toks Hw0 Hl0 Hd0 Hp0 _ IH ]; simpl.
  - now apply Lex_lone.
  - now apply Lex_space.
  - rewrite <- (@take_while_stop alnum rest c post Ha).
    apply Lex_word; auto. now rewrite drop_while_stop.
  - rewrite <- (@take_while_stop isDigit rest c post Hd).
    apply Lex_number; auto. now rewrite drop_while_stop.
  - now apply Lex_relop.
  - apply Lex_lone; auto.
    unfold pairs_up in *. destruct rest; simpl; [|exact Hp0].
    rewrite He. apply andb_false_r.
Qed.

(** Whitespace only: nothing is pushed. *)
Lemma Lex_blank suf :
  Forall (fun c => isWhitespace c = true) suf -> Lex suf [].
Proof. induction 1; [apply Lex_end | now apply Lex_space]. Qed.

(** ** From a position in the text to the text around it *)

Lemma at_cursor (src : cstring) i c :
  nth_error src i = Some c ->
  exists pre rest, src = pre ++ c :: rest /\ length pre = i.
Proof.
  intros H. destruct (cursor_split _ _ H) as [Hs Hl].
  now exists (firstn i src), (skipn (S i) src).
Qed.

Lemma skipn_cursor (pre l : cstring) : skipn (length pre) (pre ++ l) = l.
Proof. induction pre; simpl; auto. Qed.

Lemma firstn_take_while p l :
  firstn (length (take_while p l)) l = take_while p l.
Proof.
  induction l as [|c l IH]; simpl; [reflexivity|].
  destruct (p c); simpl; [now f_equal | reflexivity].
Qed.

Lemma lexicalAnalysis_boundary c pre post :
  fits_int (pre ++ c :: post) ->
  isWhitespace c = false -> alnum c = false -> (c ==c "=") = false ->
  pairs_up c post = false ->
  exists before after,
    lexicalAnalysis pre = Ok before /\
    lexicalAnalysis post = Ok after /\
    lexicalAnalysis (pre ++ c :: post) = Ok (before ++ lone_token c :: after).
Proof.
  intros Hfit Hw Ha He Hp.
  destruct (fits_int_app _ _ Hfit) as [Hfit1 Hfit2].
  apply (@fits_int_shorter post) in Hfit2; [|simpl; lia].
  destruct (Lex_total pre) as [before Hpre].
  destruct (Lex_total post) as [after Hpost].
  exists before, after. repeat split; try now apply lexicalAnalysis_Lex.
  apply lexicalAnalysis_Lex; [|exact Hfit]. now apply Lex_boundary.
Qed.

Lemma alnum_not_space c : alnum c = true -> isWhitespace c = false.
Proof.
  unfold alnum. intros H. apply orb_true_iff in H as [H|H];
    auto using letter_not_space, digit_not_space.
Qed.

Lemma Lex_no_space suf toks :
  Lex suf toks ->
  Forall (fun t => Forall (fun c => isWhitespace c = false) (value t)) toks.
Proof.
  apply Lex_Forall.
  - intros c run Hl Hrun. rewrite value_word_token. constructor.
    + now apply letter_not_space.
    + eapply Forall_impl; [|exact Hrun]. apply alnum_not_space.
  - intros c run Hd Hrun. constructor.
    + now apply digit_not_space.
    + eapply Forall_impl; [|exact Hrun]. apply digit_not_space.
  - intros c Hr. repeat constructor.
    now apply single_not_space, relop_lead_single.
  - intros c Hw _. rewrite value_lone_token. now repeat constructor.
Qed.

Lemma lone_token_delimiter c :
  type (lone_token c) = lit "DELIMITER" ->
  In c ["/"; ";"; "("; ")"; "{"; "}"; "<"; ">"]%char.
Proof. by_cases_on_char c. Qed.

Lemma lone_token_shape c : lexeme_shape (lone_token c).
Proof.
  unfold lexeme_shape. rewrite value_lone_token. split; [simpl; lia|].
  right; right. split; [|reflexivity]. unfold lone_token.
  destruct ((c ==c "+") || (c ==c "-") || (c ==c "*")); [simpl; tauto|].
  destruct (c ==c "="); [simpl; tauto|].
  destruct (single_char c); simpl; tauto.
Qed.

Lemma Lex_shape suf toks : Lex suf toks -> Forall lexeme_shape toks.
Proof.
  apply Lex_Forall.
  - intros c run _ _. unfold lexeme_shape.
    rewrite value_word_token, type_word_token. split; [simpl; lia|].
    left. destruct (isKeyword (c :: run)); simpl; tauto.
  - intros c run _ _. split; [simpl; lia|]. left. simpl; tauto.
  - intros c _. split; [simpl; lia|]. right; left. now split.
  - intros c _ _. apply lone_token_shape.
Qed.

Lemma count_le_total_length (toks : list Token) :
  Forall lexeme_shape toks -> length toks <= length (concat (map value toks)).
Proof.
  induction 1 as [|t toks [Hne _] _ IH]; simpl; [lia|].
  rewrite length_app. lia.
Qed.

(** * The properties of the specification

    The cursor of the scanner is an [int].  Every property of a run below
    is stated for texts that fit it, [fits_int]: fewer than 2^31 characters.
    On longer texts the scanner does not return (see C2). *)

(** C1. The tokens partition the text modulo whitespace: for every source
    text of fewer than 2^31 characters the scanner returns tokens, and
    there are gaps, one before each token and one after the last, made of
    whitespace only, such that the lexemes in order with the gaps put back
    between them are the source text, character for character.  No lexeme
    contains whitespace, so the gaps are exactly the characters the scanner
    skipped. *)
Theorem tokens_partition_source : forall sourceCode,
  fits_int sourceCode ->
  exists toks gaps,
    lexicalAnalysis sourceCode = Ok toks /\
    length gaps = S (length toks) /\
    Forall (Forall (fun c => isWhitespace c = true)) gaps /\
    Forall (fun t => Forall (fun c => isWhitespace c = false) (value t)) toks /\
    weave gaps (map value toks) = sourceCode.
Proof.
  intros src Hfit. destruct (Lex_total src) as [toks HL].
  destruct (Lex_weave HL) as (gaps & Hlen & Hws & Hweave).
  exists toks, gaps. repeat split; auto using lexicalAnalysis_Lex.
  now apply Lex_no_space with src.
Qed.

Lemma tokens_partition_source_witness :
  exists toks gaps,
    lexicalAnalysis (lit " x1 = 42 ;") = Ok toks /\
    length gaps = S (length toks) /\
    Forall (Forall (fun c => isWhitespace c = true)) gaps /\
    Forall (fun t => Forall (fun c => isWhitespace c = false) (value t)) toks /\
    weave gaps (map value toks) = lit " x1 = 42 ;".
Proof.
  apply (@tokens_partition_source (lit " x1 = 42 ;")).
  unfold fits_int, len, INT_MAX; simpl; lia.
Defined.

(** C2. [lexicalAnalysis] returns exactly on the texts that fit its [int]
    cursor.  On a text of fewer than 2^31 characters, the empty one
    included, the outer loop leaves through its condition with the cursor
    at the end of the text, within a budget of one test per character plus
    one, and the result is the token sequence.  On a text of 2^31
    characters or more [current_index] is incremented beyond [INT_MAX]
    before the end of the text is reached: the run ends in a signed
    overflow and returns nothing. *)
Theorem scan_returns_iff_text_fits_int : forall sourceCode,
  (fits_int sourceCode ->
   exists toks,
     while_loop (S (length sourceCode)) (main_cond sourceCode)
       (loop_body (S (length sourceCode)) sourceCode) (mkState 0 [])
     = Ok (mkState (len sourceCode) toks) /\
     lexicalAnalysis sourceCode = Ok toks) /\
  (~ fits_int sourceCode -> lexicalAnalysis sourceCode = Overflow).
Proof.
  intros src. split.
  - intros Hfit. destruct (Lex_total src) as [toks HL]. exists toks. split.
    + assert (Hf : length src < S (length src)) by lia.
      exact (@run_Lex _ _ HL [] [] _ _ Hf Hf Hfit).
    + now apply lexicalAnalysis_Lex.
  - intros Hlong. apply long_text_overflows; [exact Hlong|].
    unfold fits_int, len in Hlong. lia.
Qed.

Lemma scan_returns_iff_text_fits_int_witness :
  exists toks,
    while_loop (S (length (lit "if x")))
      (main_cond (lit "if x"))
      (loop_body (S (length (lit "if x"))) (lit "if x")) (mkState 0 [])
    = Ok (mkState (len (lit "if x")) toks) /\
    lexicalAnalysis (lit "if x") = Ok toks.
Proof.
  apply (proj1 (scan_returns_iff_text_fits_int (lit "if x"))).
  unfold fits_int, len, INT_MAX; simpl; lia.
Defined.

(** The failing input of C2: 2^31 spaces followed by [x].  The scanner
    overflows [current_index] on the last space and never reaches [x]. *)
Lemma two_gib_of_spaces_overflow :
  lexicalAnalysis (repeat " "%char (Z.to_nat 2147483648) ++ lit "x") = Overflow.
Proof.
  unfold lexicalAnalysis. apply long_text_overflows.
  - unfold fits_int, len, INT_MAX. rewrite length_app, repeat_length. lia.
  - unfold INT_MAX. rewrite length_app, repeat_length. lia.
Qed.

(** C3, amended.  The characters emitted as DELIMITER are the eight
    characters / ; ( ) { } < >.  Wherever one of / ; ( ) { } stands in a
    text of fewer than 2^31 characters it yields a DELIMITER token of its
    own, between the tokens of the text before it and those of the text
    after it; so does < or > when the next character is not =; and a
    DELIMITER token of any run is one of these eight characters. *)
Theorem delimiter_characters :
  (forall c pre post,
      fits_int (pre ++ c :: post) ->
      In c ["/"; ";"; "("; ")"; "{"; "}"]%char ->
      exists before after,
        lexicalAnalysis pre = Ok before /\
        lexicalAnalysis post = Ok after /\
        lexicalAnalysis (pre ++ c :: post)
        = Ok (before ++ tok "DELIMITER" [c] :: after)) /\
  (forall c pre post,
      fits_int (pre ++ c :: post) ->
      In c ["<"; ">"]%char -> hd_error post <> Some "="%char ->
      exists before after,
        lexicalAnalysis pre = Ok before /\
        lexicalAnalysis post = Ok after /\
        lexicalAnalysis (pre ++ c :: post)
        = Ok (before ++ tok "DELIMITER" [c] :: after)) /\
  delimiters_within ["/"; ";"; "("; ")"; "{"; "}"; "<"; ">"]%char.
Proof.
  split; [|split].
  - intros c pre post Hfit Hc.
    assert (Hfacts : isWhitespace c = false /\ alnum c = false /\
                     (c ==c "=") = false /\ relop_lead c = false /\
                     lone_token c = tok "DELIMITER" [c]).
    { simpl in Hc. repeat (destruct Hc as [<- | Hc]; [now vm_compute|]).
      destruct Hc. }
    destruct Hfacts as (Hw & Ha & He & Hr & <-).
    apply lexicalAnalysis_boundary; auto.
    unfold pairs_up. now rewrite Hr.
  - intros c pre post Hfit Hc Hpost.
    assert (Hfacts : isWhitespace c = false /\ alnum c = false /\
                     (c ==c "=") = false /\
                     lone_token c = tok "DELIMITER" [c]).
    { simpl in Hc. repeat (destruct Hc as [<- | Hc]; [now vm_compute|]).
      destruct Hc. }
    destruct Hfacts as (Hw & Ha & He & <-).
    apply lexicalAnalysis_boundary; auto.
    unfold pairs_up. destruct post as [|d post]; [apply andb_false_r|].
    destruct (d ==c "=") eqn:E; [|apply andb_false_r].
    apply Ascii.eqb_eq in E. subst d. now contradiction Hpost.
  - intros src toks t Hrun Hin Hty.
    apply lexicalAnalysis_inv in Hrun.
    assert (Hall : Forall (fun t => type t = lit "DELIMITER" ->
                     exists c, value t = [c] /\
                       In c ["/"; ";"; "("; ")"; "{"; "}"; "<"; ">"]%char) toks).
    { revert Hrun. apply Lex_Forall.
      - intros c run _ _. rewrite type_word_token.
        destruct (isKeyword (c :: run)); discriminate.
      - discriminate.
      - discriminate.
      - intros c _ _ H. exists c. split; [apply value_lone_token|].
        now apply lone_token_delimiter. }
    rewrite Forall_forall in Hall. now apply Hall.
Qed.

(** C3 as stated fails: a lone [<] is emitted as DELIMITER, and it is not
    one of / ; ( ) { }. *)
Lemma delimiter_outside_the_six :
  lexicalAnalysis (lit "<") = Ok [tok "DELIMITER" (lit "<")] /\
  ~ delimiters_within ["/"; ";"; "("; ")"; "{"; "}"]%char.
Proof.
  split; [reflexivity|].
  intros H.
  destruct (H (lit "<") [tok "DELIMITER" (lit "<")] (tok "DELIMITER" (lit "<")))
    as (c & Hv & Hc); [reflexivity | now left | reflexivity |].
  injection Hv as <-. simpl in Hc.
  repeat (destruct Hc as [Hc | Hc]; [discriminate|]). exact Hc.
Qed.

Lemma delimiter_characters_witness :
  lexicalAnalysis (lit "f(x)<y") =
  Ok ([tok "IDENTIFIER" (lit "f"); tok "DELIMITER" (lit "(");
       tok "IDENTIFIER" (lit "x"); tok "DELIMITER" (lit ")")]
      ++ tok "DELIMITER" (lit "<") :: [tok "IDENTIFIER" (lit "y")]).
Proof.
  destruct (proj1 (proj2 delimiter_characters) "<"%char (lit "f(x)") (lit "y"))
    as (before & after & Hb & Ha & Hrun).
  - unfold fits_int, len, INT_MAX; simpl; lia.
  - simpl. tauto.
  - simpl. discriminate.
  - vm_compute in Hb. vm_compute in Ha.
    injection Hb as <-. injection Ha as <-. exact Hrun.
Defined.

(** C4. In an iteration of the outer loop on a text of fewer than 2^31
    characters whose cursor is on [=], [<] or [>] with [=] as the next
    character, both characters are consumed and one RELATIONAL_OPERATOR
    token with the two-character lexeme is pushed, whatever the
    single-character classification would have been; on a [=] whose next
    character is not [=] (or is missing) one character is consumed and
    ASSIGNMENT_OPERATOR is pushed; and the text [a==b] scans to
    IDENTIFIER a, RELATIONAL_OPERATOR ==, IDENTIFIER b. *)
Theorem relational_lookahead_priority :
  (forall fuel sourceCode i acc c,
      fits_int sourceCode ->
      nth_error sourceCode i = Some c ->
      In c ["="; "<"; ">"]%char ->
      nth_error sourceCode (i + 1) = Some "="%char ->
      loop_body fuel sourceCode (mkState (Z.of_nat i) acc)
      = Ok (mkState (Z.of_nat (i + 2))
              (acc ++ [tok "RELATIONAL_OPERATOR" [c; "="%char]]))) /\
  (forall fuel sourceCode i acc,
      fits_int sourceCode ->
      nth_error sourceCode i = Some "="%char ->
      nth_error sourceCode (i + 1) <> Some "="%char ->
      loop_body fuel sourceCode (mkState (Z.of_nat i) acc)
      = Ok (mkState (Z.of_nat (i + 1))
              (acc ++ [tok "ASSIGNMENT_OPERATOR" (lit "=")]))) /\
  lexicalAnalysis (lit "a==b")
  = Ok [tok "IDENTIFIER" (lit "a"); tok "RELATIONAL_OPERATOR" (lit "==");
        tok "IDENTIFIER" (lit "b")].
Proof.
  split; [|split; [|reflexivity]].
  - intros fuel src i acc c Hfit Hc Hin Hnext.
    destruct (at_cursor _ _ Hc) as (pre & rest & -> & <-).
    rewrite nth_error_next in Hnext.
    destruct rest as [|d rest]; [discriminate|]. injection Hnext as ->.
    rewrite Nat2Z.inj_add. fold (len pre).
    apply body_relop; [exact Hfit|]. now apply relop_lead_In.
  - intros fuel src i acc Hfit Hc Hnext.
    destruct (at_cursor _ _ Hc) as (pre & rest & -> & <-).
    rewrite nth_error_next in Hnext.
    rewrite Nat2Z.inj_add. fold (len pre).
    apply (@body_lone fuel pre "="%char rest acc); try reflexivity; [exact Hfit|].
    destruct rest as [|d rest]; [reflexivity|].
    unfold pairs_up. simpl. destruct (d ==c "=") eqn:E; [|reflexivity].
    apply Ascii.eqb_eq in E. subst d. now contradiction Hnext.
Qed.

Lemma relational_lookahead_priority_witness :
  loop_body 0 (lit "x<=1") (mkState (Z.of_nat 1) [tok "IDENTIFIER" (lit "x")])
  = Ok (mkState (Z.of_nat (1 + 2))
          ([tok "IDENTIFIER" (lit "x")] ++ [tok "RELATIONAL_OPERATOR" (lit "<=")])) /\
  loop_body 0 (lit "x=1") (mkState (Z.of_nat 1) [tok "IDENTIFIER" (lit "x")])
  = Ok (mkState (Z.of_nat (1 + 1))
          ([tok "IDENTIFIER" (lit "x")] ++ [tok "ASSIGNMENT_OPERATOR" (lit "=")])).
Proof.
  split.
  - apply (proj1 relational_lookahead_priority 0 (lit "x<=1") 1
             [tok "IDENTIFIER" (lit "x")] "<"%char).
    + unfold fits_int, len, INT_MAX; simpl; lia.
    + reflexivity.
    + simpl. tauto.
    + reflexivity.
  - apply (proj1 (proj2 relational_lookahead_priority) 0 (lit "x=1") 1
             [tok "IDENTIFIER" (lit "x")]).
    + unfold fits_int, len, INT_MAX; simpl; lia.
    + reflexivity.
    + simpl. discriminate.
Defined.

(** C5. In an iteration of the outer loop on a text of fewer than 2^31
    characters whose cursor [i] is on a letter, the cursor moves to a
    position [j] and one token is pushed whose lexeme is the text from [i]
    up to [j]: it consists of letters and digits, and it is maximal, for [j]
    is the end of the text or holds a character that is neither letter nor
    digit, which is left for the next iteration.  The token is KEYWORD when
    the whole lexeme is one of int, float, if, else, while, return, void,
    and IDENTIFIER otherwise.  [if] scans to one KEYWORD and [iff] to one
    IDENTIFIER. *)
Theorem identifier_maximal_munch :
  (forall fuel sourceCode i acc c,
      fits_int sourceCode ->
      nth_error sourceCode i = Some c ->
      isLetter c = true ->
      length sourceCode < fuel ->
      exists j t,
        loop_body fuel sourceCode (mkState (Z.of_nat i) acc)
        = Ok (mkState (Z.of_nat j) (acc ++ [t])) /\
        i < j <= length sourceCode /\
        value t = firstn (j - i) (skipn i sourceCode) /\
        Forall (fun d => isLetter d = true \/ isDigit d = true) (value t) /\
        (nth_error sourceCode j = None \/
         exists d, nth_error sourceCode j = Some d /\
                   isLetter d = false /\ isDigit d = false) /\
        let reserved := map lit ["int"; "float"; "if"; "else"; "while";
                                 "return"; "void"]%string in
        (In (value t) reserved -> type t = lit "KEYWORD") /\
        (~ In (value t) reserved -> type t = lit "IDENTIFIER")) /\
  lexicalAnalysis (lit "if") = Ok [tok "KEYWORD" (lit "if")] /\
  lexicalAnalysis (lit "iff") = Ok [tok "IDENTIFIER" (lit "iff")].
Proof.
  split; [|split; reflexivity].
  intros fuel src i acc c Hfit Hc Hl Hf.
  destruct (at_cursor _ _ Hc) as (pre & rest & -> & <-).
  assert (Hw : isWhitespace c = false) by now apply letter_not_space.
  rewrite length_app in Hf. simpl in Hf.
  set (run := take_while alnum rest).
  exists (length pre + 1 + length run), (word_token (c :: run)).
  rewrite value_word_token, type_word_token.
  assert (Hsplit : pre ++ c :: rest = (pre ++ c :: run) ++ drop_while alnum rest).
  { rewrite <- app_assoc. simpl. unfold run. now rewrite take_drop_while. }
  assert (Hj : length (pre ++ c :: run) = length pre + 1 + length run)
    by (rewrite length_app; simpl; lia).
  repeat split.
  - rewrite !Nat2Z.inj_add. fold (len pre) (len run).
    apply body_word; auto; lia.
  - lia.
  - rewrite Hsplit, length_app, Hj. lia.
  - rewrite skipn_cursor.
    replace (length pre + 1 + length run - length pre) with (S (length run)) by lia.
    simpl. f_equal. symmetry. apply firstn_take_while.
  - constructor; [now left|].
    eapply Forall_impl; [|apply take_while_all]. simpl. intros d Hd.
    now apply orb_true_iff.
  - rewrite Hsplit, <- Hj, nth_error_app2, Nat.sub_diag by lia.
    pose proof (drop_while_head alnum rest) as Hhead.
    destruct (drop_while alnum rest) as [|d tail]; [now left|].
    right. exists d. split; [reflexivity|]. now apply orb_false_iff.
  - intros Hin. change (In (c :: run) KEYWORDS) in Hin.
    apply isKeyword_In in Hin. now rewrite Hin.
  - intros Hout. change (~ In (c :: run) KEYWORDS) in Hout.
    destruct (isKeyword (c :: run)) eqn:E; [|reflexivity].
    apply isKeyword_In in E. contradiction.
Qed.

Lemma identifier_maximal_munch_witness :
  exists j t,
    loop_body 9 (lit "int x1;") (mkState (Z.of_nat 4) [tok "KEYWORD" (lit "int")])
    = Ok (mkState (Z.of_nat j) ([tok "KEYWORD" (lit "int")] ++ [t])) /\
    j = 6 /\ t = tok "IDENTIFIER" (lit "x1").
Proof.
  destruct (proj1 identifier_maximal_munch 9 (lit "int x1;") 4
              [tok "KEYWORD" (lit "int")] "x"%char)
    as (j & t & Hrun & _).
  - unfold fits_int, len, INT_MAX; simpl; lia.
  - reflexivity.
  - reflexivity.
  - simpl; lia.
  - exists j, t. split; [exact Hrun|].
    assert (Hlhs : loop_body 9 (lit "int x1;")
                     (mkState (Z.of_nat 4) [tok "KEYWORD" (lit "int")])
                   = Ok (mkState 6%Z [tok "KEYWORD" (lit "int");
                                      tok "IDENTIFIER" (lit "x1")]))
      by reflexivity.
    rewrite Hlhs in Hrun. injection Hrun as Hj Ht.
    split; [lia | now rewrite <- Ht].
Defined.

Lemma lone_token_error c : single_char c = false -> lone_token c = tok "ERROR" [c].
Proof. by_cases_on_char c. Qed.

Lemma not_single_not_relop c : single_char c = false -> relop_lead c = false.
Proof.
  intros H. destruct (relop_lead c) eqn:E; [|reflexivity].
  apply relop_lead_single in E. congruence.
Qed.

(** C6. In a text of fewer than 2^31 characters, a character that is no
    letter, no digit, no whitespace and not in the single-character token
    set makes the iteration of the outer loop that meets it push one ERROR
    token holding exactly that character and move the cursor by one.
    Scanning goes on, and the tokens on either side are those of the text
    before and of the text after the character, unchanged.  In
    [x = 5 @ 3;] the ERROR token for [@] stands between the tokens for [5]
    and [3]. *)
Theorem error_token_per_invalid_char :
  (forall c,
      isLetter c = false -> isDigit c = false -> isWhitespace c = false ->
      ~ In c SINGLE_CHAR_TOKENS ->
      (forall fuel sourceCode i acc,
          fits_int sourceCode ->
          nth_error sourceCode i = Some c ->
          loop_body fuel sourceCode (mkState (Z.of_nat i) acc)
          = Ok (mkState (Z.of_nat (i + 1)) (acc ++ [tok "ERROR" [c]]))) /\
      (forall pre post,
          fits_int (pre ++ c :: post) ->
          exists before after,
            lexicalAnalysis pre = Ok before /\
            lexicalAnalysis post = Ok after /\
            lexicalAnalysis (pre ++ c :: post)
            = Ok (before ++ tok "ERROR" [c] :: after))) /\
  lexicalAnalysis (lit "x = 5 @ 3;")
  = Ok [tok "IDENTIFIER" (lit "x"); tok "ASSIGNMENT_OPERATOR" (lit "=");
        tok "INTEGER" (lit "5"); tok "ERROR" (lit "@");
        tok "INTEGER" (lit "3"); tok "DELIMITER" (lit ";")].
Proof.
  split; [|reflexivity].
  intros c Hl Hd Hw Hs.
  assert (Hs' : single_char c = false).
  { destruct (single_char c) eqn:E; [|reflexivity].
    apply single_char_In in E. contradiction. }
  assert (Hp : forall rest, pairs_up c rest = false).
  { intros rest. unfold pairs_up. now rewrite (not_single_not_relop c Hs'). }
  rewrite <- (lone_token_error c Hs'). split.
  - intros fuel src i acc Hfit Hc.
    destruct (at_cursor _ _ Hc) as (pre & rest & -> & <-).
    rewrite Nat2Z.inj_add. fold (len pre). now apply body_lone.
  - intros pre post Hfit. apply lexicalAnalysis_boundary; auto.
    + unfold alnum. now rewrite Hl, Hd.
    + destruct (c ==c "=") eqn:E; [|reflexivity].
      apply Ascii.eqb_eq in E. subst c. discriminate Hs'.
Qed.

Lemma error_token_per_invalid_char_witness :
  loop_body 0 (lit "a!b") (mkState (Z.of_nat 1) [])
  = Ok (mkState (Z.of_nat (1 + 1)) ([] ++ [tok "ERROR" (lit "!")])) /\
  lexicalAnalysis (lit "a" ++ "!"%char :: lit "=b")
  = Ok ([tok "IDENTIFIER" (lit "a")] ++
        tok "ERROR" (lit "!") ::
        [tok "ASSIGNMENT_OPERATOR" (lit "="); tok "IDENTIFIER" (lit "b")]).
Proof.
  assert (Hnot : ~ In "!"%char SINGLE_CHAR_TOKENS).
  { simpl. intros H. repeat (destruct H as [H | H]; [discriminate|]). exact H. }
  destruct (proj1 error_token_per_invalid_char "!"%char
              eq_refl eq_refl eq_refl Hnot) as [Hbody Hrun].
  split.
  - apply Hbody; [unfold fits_int, len, INT_MAX; simpl; lia | reflexivity].
  - destruct (Hrun (lit "a") (lit "=b")) as (before & after & Hb & Ha & H).
    + unfold fits_int, len, INT_MAX; simpl; lia.
    + vm_compute in Hb. vm_compute in Ha.
      injection Hb as <-. injection Ha as <-. exact H.
Defined.

(** C7. The empty text yields no token, and so does every text of fewer
    than 2^31 characters made only of spaces, tabs, newlines and carriage
    returns. *)
Theorem blank_input_no_tokens :
  lexicalAnalysis [] = Ok [] /\
  forall sourceCode,
    fits_int sourceCode ->
    Forall (fun c => In c [" "; "009"; "010"; "013"]%char) sourceCode ->
    lexicalAnalysis sourceCode = Ok [].
Proof.
  split; [reflexivity|].
  intros src Hfit Hall. apply lexicalAnalysis_Lex; [|exact Hfit].
  apply Lex_blank.
  eapply Forall_impl; [|exact Hall]. intros c. apply isWhitespace_In.
Qed.

Lemma blank_input_no_tokens_witness :
  lexicalAnalysis [" "; " "; " "; "009"; "010"]%char = Ok [].
Proof.
  apply (proj2 blank_input_no_tokens).
  - unfold fits_int, len, INT_MAX; simpl; lia.
  - repeat constructor; simpl; tauto.
Defined.



(** C10, amended.  On a text of fewer than 2^31 characters the scanner
    returns at most as many tokens as the text has characters, and the
    lexemes together are no longer than the text: every token consumes at
    least one character of its own.  Every lexeme is non-empty; the lexeme
    of a RELATIONAL_OPERATOR token has two characters and that of an
    ARITHMETIC_OPERATOR, ASSIGNMENT_OPERATOR, DELIMITER or ERROR token has
    one; KEYWORD, IDENTIFIER and INTEGER are the only other kinds. *)
Theorem token_count_and_lexeme_lengths : forall sourceCode,
  fits_int sourceCode ->
  exists toks,
    lexicalAnalysis sourceCode = Ok toks /\
    length toks <= length sourceCode /\
    length (concat (map value toks)) <= length sourceCode /\
    Forall lexeme_shape toks.
Proof.
  intros src Hfit. destruct (Lex_total src) as [toks HL]. exists toks.
  pose proof (Lex_shape HL) as Hshape.
  pose proof (Lex_lexemes_length HL) as Hsum.
  pose proof (count_le_total_length Hshape) as Hcount.
  repeat split; auto using lexicalAnalysis_Lex. lia.
Qed.

Lemma token_count_and_lexeme_lengths_witness :
  exists toks,
    lexicalAnalysis (lit "while (n >= 10)") = Ok toks /\
    length toks <= length (lit "while (n >= 10)") /\
    length (concat (map value toks)) <= length (lit "while (n >= 10)") /\
    Forall lexeme_shape toks.
Proof.
  apply (@token_count_and_lexeme_lengths (lit "while (n >= 10)")).
  unfold fits_int, len, INT_MAX; simpl; lia.
Defined.

(** C10 as stated fails: the lexeme of the one token of [iff] has three
    characters. *)
Lemma lexeme_longer_than_two :
  exists toks,
    lexicalAnalysis (lit "iff") = Ok toks /\
    length toks <= length (lit "iff") /\
    ~ short_lexemes toks.
Proof.
  exists [tok "IDENTIFIER" (lit "iff")]. split; [reflexivity|].
  split; [simpl; lia|].
  intros H. inversion H as [|t l [[Hlen | Hlen] _] _]; discriminate Hlen.
Qed.
(** * Further properties of the scanner and of its caller *)

(** ** Cutting a text *)

Lemma Lex_nil_inv toks : Lex [] toks -> toks = [].
Proof. now inversion 1. Qed.

(** A character that cannot continue an identifier, an integer or a
    relational operator starts afresh: what precedes it is scanned as if
    the text ended there. *)
Lemma Lex_cut c post tail :
  alnum c = false -> (c ==c "=") = false ->
  Lex (c :: post) tail ->
  forall pre before, Lex pre before -> Lex (pre ++ c :: post) (before ++ tail).
Proof.
  intros Ha He Htail pre before Hpre.
  pose proof Ha as Ha'. unfold alnum in Ha'. apply orb_false_iff in Ha' as [Hl Hd].
  induction Hpre as [ | c0 rest toks Hw0 _ IH | c0 rest toks Hw0 Hl0 _ IH
                    | c0 rest toks Hw0 Hl0 Hd0 _ IH | c0 rest toks Hr0 _ IH
                    | c0 rest toks Hw0 Hl0 Hd0 Hp0 _ IH ]; simpl.
  - exact Htail.
  - now apply Lex_space.
  - rewrite <- (@take_while_stop alnum rest c post Ha).
    apply Lex_word; auto. now rewrite drop_while_stop.
  - rewrite <- (@take_while_stop isDigit rest c post Hd).
    apply Lex_number; auto. now rewrite drop_while_stop.
  - now apply Lex_relop.
  - apply Lex_lone; auto.
    unfold pairs_up in *. destruct rest; simpl; [|exact Hp0].
    rewrite He. apply andb_false_r.
Qed.

Lemma space_not_alnum c : isWhitespace c = true -> alnum c = false.
Proof. by_cases_on_char c. Qed.

Lemma space_not_equals c : isWhitespace c = true -> (c ==c "=") = false.
Proof. by_cases_on_char c. Qed.

Lemma high_byte_unclassified c :
  (128 <=? nat_of_ascii c) = true ->
  isLetter c = false /\ isDigit c = false /\ isWhitespace c = false /\
  single_char c = false.
Proof. by_cases_on_char c. Qed.

(** The runs on a text that fits [int] and on its two parts. *)
Lemma cut_runs c pre post before after whole :
  fits_int (pre ++ c :: post) ->
  Lex pre before -> Lex post after -> Lex (pre ++ c :: post) whole ->
  lexicalAnalysis pre = Ok before /\
  lexicalAnalysis post = Ok after /\
  lexicalAnalysis (pre ++ c :: post) = Ok whole.
Proof.
  intros Hfit Hpre Hpost Hwhole.
  destruct (fits_int_app _ _ Hfit) as [Hfit1 Hfit2].
  apply (@fits_int_shorter post) in Hfit2; [|simpl; lia].
  repeat split; now apply lexicalAnalysis_Lex.
Qed.

(** X3. Whitespace only separates: the tokens of a text of fewer than 2^31
    characters with a whitespace character in it are the tokens of what
    stands before the character followed by the tokens of what stands after
    it.  Which of the four whitespace characters it is makes no
    difference. *)
Theorem whitespace_separates : forall w pre post,
  fits_int (pre ++ w :: post) ->
  isWhitespace w = true ->
  exists before after,
    lexicalAnalysis pre = Ok before /\
    lexicalAnalysis post = Ok after /\
    lexicalAnalysis (pre ++ w :: post) = Ok (before ++ after).
Proof.
  intros w pre post Hfit Hw.
  destruct (Lex_total pre) as [before Hpre].
  destruct (Lex_total post) as [after Hpost].
  exists before, after. apply cut_runs; auto.
  apply Lex_cut; auto using space_not_alnum, space_not_equals.
  now apply Lex_space.
Qed.

Lemma whitespace_separates_witness :
  lexicalAnalysis (lit "x<" ++ "013"%char :: lit "=1")
  = Ok ([tok "IDENTIFIER" (lit "x"); tok "DELIMITER" (lit "<")] ++
        [tok "ASSIGNMENT_OPERATOR" (lit "="); tok "INTEGER" (lit "1")]).
Proof.
  destruct (@whitespace_separates "013"%char (lit "x<") (lit "=1"))
    as (before & after & Hb & Ha & H);
    [unfold fits_int, len, INT_MAX; simpl; lia | reflexivity |].
  vm_compute in Hb. vm_compute in Ha.
  injection Hb as <-. injection Ha as <-. exact H.
Defined.

(** X2. Wherever [+], [-] or [*] stands in a text of fewer than 2^31
    characters it yields an ARITHMETIC_OPERATOR token of its own, between
    the tokens of the text before it and those of the text after it. *)
Theorem arithmetic_operator_tokens : forall c pre post,
  fits_int (pre ++ c :: post) ->
  In c ["+"; "-"; "*"]%char ->
  exists before after,
    lexicalAnalysis pre = Ok before /\
    lexicalAnalysis post = Ok after /\
    lexicalAnalysis (pre ++ c :: post)
    = Ok (before ++ tok "ARITHMETIC_OPERATOR" [c] :: after).
Proof.
  intros c pre post Hfit Hc.
  assert (Hfacts : isWhitespace c = false /\ alnum c = false /\
                   (c ==c "=") = false /\ relop_lead c = false /\
                   lone_token c = tok "ARITHMETIC_OPERATOR" [c]).
  { simpl in Hc. repeat (destruct Hc as [<- | Hc]; [now vm_compute|]).
    destruct Hc. }
  destruct Hfacts as (Hw & Ha & He & Hr & <-).
  apply lexicalAnalysis_boundary; auto.
  unfold pairs_up. now rewrite Hr.
Qed.

Lemma arithmetic_operator_tokens_witness :
  lexicalAnalysis (lit "a" ++ "-"%char :: lit "-1")
  = Ok ([tok "IDENTIFIER" (lit "a")] ++
        tok "ARITHMETIC_OPERATOR" (lit "-") ::
        [tok "ARITHMETIC_OPERATOR" (lit "-"); tok "INTEGER" (lit "1")]).
Proof.
  destruct (@arithmetic_operator_tokens "-"%char (lit "a") (lit "-1"))
    as (before & after & Hb & Ha & H);
    [unfold fits_int, len, INT_MAX; simpl; lia | simpl; tauto |].
  vm_compute in Hb. vm_compute in Ha.
  injection Hb as <-. injection Ha as <-. exact H.
Defined.

(** X12. A byte with the high bit set (code 128 to 255) belongs to no class
    of the scanner: each such byte of a text of fewer than 2^31 characters
    yields one ERROR token holding that byte, so a multi-byte character
    gives one ERROR token per byte. *)
Theorem high_bytes_are_errors : forall c pre post,
  fits_int (pre ++ c :: post) ->
  128 <= nat_of_ascii c ->
  exists before after,
    lexicalAnalysis pre = Ok before /\
    lexicalAnalysis post = Ok after /\
    lexicalAnalysis (pre ++ c :: post)
    = Ok (before ++ tok "ERROR" [c] :: after).
Proof.
  intros c pre post Hfit Hc. apply Nat.leb_le in Hc.
  destruct (high_byte_unclassified c Hc) as (Hl & Hd & Hw & Hs).
  rewrite <- (lone_token_error c Hs).
  apply lexicalAnalysis_boundary; auto.
  - unfold alnum. now rewrite Hl, Hd.
  - destruct (c ==c "=") eqn:E; [|reflexivity].
    apply Ascii.eqb_eq in E. subst c. discriminate Hs.
  - unfold pairs_up. now rewrite (not_single_not_relop c Hs).
Qed.

Lemma high_bytes_are_errors_witness :
  lexicalAnalysis (lit "a" ++ "195"%char :: "169"%char :: lit "b")
  = Ok ([tok "IDENTIFIER" (lit "a")] ++
        tok "ERROR" ["195"%char] ::
        [tok "ERROR" ["169"%char]; tok "IDENTIFIER" (lit "b")]).
Proof.
  destruct (@high_bytes_are_errors "195"%char (lit "a") ("169"%char :: lit "b"))
    as (before & after & Hb & Ha & H);
    [unfold fits_int, len, INT_MAX; simpl; lia | vm_compute; lia |].
  vm_compute in Hb. vm_compute in Ha.
  injection Hb as <-. injection Ha as <-. exact H.
Defined.

(** X11. The four character classes of the scanner are pairwise disjoint:
    no character is accepted by two of [isLetter], [isDigit], [isWhitespace]
    and the membership test of [SINGLE_CHAR_TOKENS], so the order of the
    branches of the scanner decides nothing. *)
Theorem character_classes_disjoint : forall c,
  let single := to_bool (set_count Ascii.eqb SINGLE_CHAR_TOKENS c) in
  isLetter c && isDigit c = false /\
  isLetter c && isWhitespace c = false /\
  isLetter c && single = false /\
  isDigit c && isWhitespace c = false /\
  isDigit c && single = false /\
  isWhitespace c && single = false.
Proof. intros c. by_cases_on_char c. Qed.

(** ** Runs of letters and digits *)

Lemma digit_not_letter c : isDigit c = true -> isLetter c = false.
Proof. by_cases_on_char c. Qed.

Lemma take_while_whole p l :
  Forall (fun c => p c = true) l -> take_while p l = l /\ drop_while p l = [].
Proof.
  induction 1 as [|c l Hc _ [IHt IHd]]; simpl; [auto|].
  rewrite Hc. split; [now f_equal | exact IHd].
Qed.

Lemma take_while_until p l c m :
  Forall (fun d => p d = true) l -> p c = false ->
  take_while p (l ++ c :: m) = l /\ drop_while p (l ++ c :: m) = c :: m.
Proof.
  intros Hl Hc. destruct (@take_while_whole _ _ Hl) as [Ht Hd].
  rewrite (@take_while_stop p l c m Hc), (@drop_while_stop p l c m Hc), Ht, Hd.
  now split.
Qed.

Lemma alnum_Forall (l : cstring) :
  Forall (fun d => isLetter d = true \/ isDigit d = true) l <->
  Forall (fun d => alnum d = true) l.
Proof.
  split; intros H; (eapply Forall_impl; [|exact H]); intros d; unfold alnum;
    apply orb_true_iff.
Qed.

(** The text between two cursors. *)
Lemma consumed_text (pre mid post : cstring) j :
  j = length pre + length mid ->
  firstn (j - length pre) (skipn (length pre) (pre ++ mid ++ post)) = mid.
Proof.
  intros ->. rewrite skipn_cursor.
  replace (length pre + length mid - length pre) with (length mid) by lia.
  rewrite firstn_app, Nat.sub_diag, firstn_all. simpl. apply app_nil_r.
Qed.

(** X1. In an iteration of the outer loop on a text of fewer than 2^31
    characters whose cursor [i] is on a digit, the cursor moves to a position [j] and one INTEGER token is pushed whose
    lexeme is the text from [i] up to [j]: it consists of digits only and is
    maximal, for [j] is the end of the text or holds a character that is no
    digit, which is left for the next iteration. *)
Theorem integer_maximal_munch : forall fuel sourceCode i acc c,
  fits_int sourceCode ->
  nth_error sourceCode i = Some c ->
  isDigit c = true ->
  length sourceCode < fuel ->
  exists j lexeme,
    loop_body fuel sourceCode (mkState (Z.of_nat i) acc)
    = Ok (mkState (Z.of_nat j) (acc ++ [tok "INTEGER" lexeme])) /\
    i < j <= length sourceCode /\
    lexeme = firstn (j - i) (skipn i sourceCode) /\
    Forall (fun d => isDigit d = true) lexeme /\
    (nth_error sourceCode j = None \/
     exists d, nth_error sourceCode j = Some d /\ isDigit d = false).
Proof.
  intros fuel src i acc c Hfit Hc Hd Hf.
  destruct (at_cursor _ _ Hc) as (pre & rest & -> & <-).
  rewrite length_app in Hf. simpl in Hf.
  set (run := take_while isDigit rest).
  exists (length pre + 1 + length run), (c :: run).
  assert (Hsplit : pre ++ c :: rest = pre ++ (c :: run) ++ drop_while isDigit rest).
  { simpl. unfold run. now rewrite take_drop_while. }
  repeat split.
  - rewrite !Nat2Z.inj_add. fold (len pre) (len run).
    apply body_number; auto using digit_not_space, digit_not_letter. lia.
  - lia.
  - rewrite Hsplit, !length_app. simpl. lia.
  - rewrite Hsplit. symmetry. apply consumed_text. simpl. lia.
  - constructor; [exact Hd | apply take_while_all].
  - rewrite Hsplit, app_assoc, nth_error_app2 by (rewrite length_app; simpl; lia).
    replace (length pre + 1 + length run - length (pre ++ c :: run)) with 0
      by (rewrite length_app; simpl; lia).
    pose proof (drop_while_head isDigit rest) as Hhead.
    destruct (drop_while isDigit rest) as [|d tail]; [now left|].
    right. now exists d.
Qed.

Lemma integer_maximal_munch_witness :
  exists j lexeme,
    loop_body 9 (lit "n=12ab") (mkState (Z.of_nat 2) [])
    = Ok (mkState (Z.of_nat j) ([] ++ [tok "INTEGER" lexeme])) /\
    j = 4 /\ lexeme = lit "12".
Proof.
  destruct (@integer_maximal_munch 9 (lit "n=12ab") 2 [] "1"%char)
    as (j & lexeme & Hrun & _);
    [unfold fits_int, len, INT_MAX; simpl; lia
    | reflexivity | reflexivity | simpl; lia |].
  exists j, lexeme. split; [exact Hrun|].
  assert (Hlhs : loop_body 9 (lit "n=12ab") (mkState (Z.of_nat 2) [])
                 = Ok (mkState 4%Z [tok "INTEGER" (lit "12")]))
    by reflexivity.
  rewrite Hlhs in Hrun. injection Hrun as Hj Hl.
  split; [lia | now rewrite <- Hl].
Defined.

(** X8. A text of fewer than 2^31 characters that is one unbroken run is
    one token: a letter followed by letters and digits only scans to a single token holding the whole text,
    KEYWORD when the text is one of the reserved words and IDENTIFIER
    otherwise; a non-empty text of digits scans to a single INTEGER token
    holding the whole text. *)
Theorem unbroken_run_is_one_token :
  (forall c run,
      fits_int (c :: run) ->
      isLetter c = true ->
      Forall (fun d => isLetter d = true \/ isDigit d = true) run ->
      exists t,
        lexicalAnalysis (c :: run) = Ok [t] /\
        value t = c :: run /\
        (In (c :: run) KEYWORDS -> type t = lit "KEYWORD") /\
        (~ In (c :: run) KEYWORDS -> type t = lit "IDENTIFIER")) /\
  (forall d run,
      fits_int (d :: run) ->
      isDigit d = true ->
      Forall (fun e => isDigit e = true) run ->
      lexicalAnalysis (d :: run) = Ok [tok "INTEGER" (d :: run)]).
Proof.
  split.
  - intros c run Hfit Hl Hrun. apply alnum_Forall in Hrun.
    destruct (@take_while_whole _ _ Hrun) as [Ht Hd].
    exists (word_token (c :: run)).
    rewrite value_word_token, type_word_token. repeat split.
    + apply lexicalAnalysis_Lex; [|exact Hfit]. rewrite <- Ht at 2.
      apply Lex_word; auto using letter_not_space. rewrite Hd. apply Lex_end.
    + intros Hin. apply isKeyword_In in Hin. now rewrite Hin.
    + intros Hout. destruct (isKeyword (c :: run)) eqn:E; [|reflexivity].
      apply isKeyword_In in E. contradiction.
  - intros d run Hfit Hd Hrun. destruct (@take_while_whole _ _ Hrun) as [Ht Hdrop].
    apply lexicalAnalysis_Lex; [|exact Hfit]. rewrite <- Ht at 2.
    apply Lex_number; auto using digit_not_space, digit_not_letter.
    rewrite Hdrop. apply Lex_end.
Qed.

Lemma unbroken_run_is_one_token_witness :
  (exists t, lexicalAnalysis (lit "while1") = Ok [t] /\
             type t = lit "IDENTIFIER") /\
  lexicalAnalysis (lit "007") = Ok [tok "INTEGER" (lit "007")].
Proof.
  split.
  - destruct (proj1 unbroken_run_is_one_token "w"%char (lit "hile1"))
      as (t & Hrun & _ & _ & Hid).
    + unfold fits_int, len, INT_MAX; simpl; lia.
    + reflexivity.
    + repeat constructor; vm_compute; tauto.
    + exists t. split; [exact Hrun|]. apply Hid.
      simpl. intros H. repeat (destruct H as [H | H]; [discriminate|]). exact H.
  - apply (proj2 unbroken_run_is_one_token "0"%char (lit "07")).
    + unfold fits_int, len, INT_MAX; simpl; lia.
    + reflexivity.
    + repeat constructor.
Defined.

(** X9. A number that runs straight into letters is split, not rejected:
    in a text of fewer than 2^31 characters, digits followed by a letter and further letters and digits scan to an
    INTEGER token holding the digits and one KEYWORD or IDENTIFIER token
    holding the rest. *)
Theorem digits_then_letters_split : forall d digits l rest,
  fits_int (d :: digits ++ l :: rest) ->
  isDigit d = true ->
  Forall (fun e => isDigit e = true) digits ->
  isLetter l = true ->
  Forall (fun e => isLetter e = true \/ isDigit e = true) rest ->
  exists t,
    lexicalAnalysis (d :: digits ++ l :: rest)
    = Ok [tok "INTEGER" (d :: digits); t] /\
    value t = l :: rest /\
    In (type t) [lit "KEYWORD"; lit "IDENTIFIER"].
Proof.
  intros d digits l rest Hfit Hd Hdigits Hl Hrest. apply alnum_Forall in Hrest.
  destruct (@take_while_until isDigit digits l rest Hdigits (letter_not_digit l Hl))
    as [Ht Hdrop].
  destruct (@take_while_whole _ _ Hrest) as [Ht' Hdrop'].
  exists (word_token (l :: rest)).
  rewrite value_word_token, type_word_token. repeat split.
  - apply lexicalAnalysis_Lex; [|exact Hfit]. rewrite <- Ht at 2.
    apply Lex_number; auto using digit_not_space, digit_not_letter.
    rewrite Hdrop. rewrite <- Ht' at 2.
    apply Lex_word; auto using letter_not_space. rewrite Hdrop'. apply Lex_end.
  - destruct (isKeyword (l :: rest)); simpl; tauto.
Qed.

Lemma digits_then_letters_split_witness :
  exists t,
    lexicalAnalysis ("1"%char :: lit "2" ++ "i"%char :: lit "f")
    = Ok [tok "INTEGER" (lit "12"); t] /\
    value t = lit "if".
Proof.
  destruct (@digits_then_letters_split "1"%char (lit "2") "i"%char (lit "f"))
    as (t & Hrun & Hv & _); try reflexivity.
  - unfold fits_int, len, INT_MAX; simpl; lia.
  - repeat constructor.
  - repeat constructor; vm_compute; tauto.
  - now exists t.
Defined.

(** ** One iteration: progress *)

Lemma take_while_length p l : length (take_while p l) <= length l.
Proof. induction l as [|c l IH]; simpl; [|destruct (p c); simpl]; lia. Qed.

Lemma consumed_run (pre : cstring) c p rest :
  firstn (length pre + 1 + length (take_while p rest) - length pre)
         (skipn (length pre) (pre ++ c :: rest))
  = c :: take_while p rest.
Proof.
  rewrite skipn_cursor.
  replace (length pre + 1 + length (take_while p rest) - length pre)
    with (S (length (take_while p rest))) by lia.
  simpl. f_equal. apply firstn_take_while.
Qed.

(** X10. On a text of fewer than 2^31 characters, every iteration of the
    outer loop that starts inside the text ends, moves the cursor forward
    and not beyond the end of the text, and leaves the tokens pushed so far
    untouched: either the character at the cursor is whitespace, the
    cursor moves by one and nothing is pushed, or exactly one token is
    appended, whose lexeme is the text between the old and the new
    cursor. *)
Theorem loop_body_progress : forall fuel sourceCode st,
  fits_int sourceCode ->
  (0 <= current_index st < len sourceCode)%Z ->
  length sourceCode < fuel ->
  exists st',
    loop_body fuel sourceCode st = Ok st' /\
    (current_index st < current_index st' <= len sourceCode)%Z /\
    ((exists w, nth_error sourceCode (Z.to_nat (current_index st)) = Some w /\
                isWhitespace w = true /\
                current_index st' = (current_index st + 1)%Z /\
                tokens st' = tokens st) \/
     (exists t, tokens st' = tokens st ++ [t] /\
                value t = firstn (Z.to_nat (current_index st' - current_index st))
                            (skipn (Z.to_nat (current_index st)) sourceCode))).
Proof.
  intros fuel src [i acc] Hfit Hi Hf. cbn [current_index tokens] in *.
  destruct (nth_error src (Z.to_nat i)) as [c|] eqn:Hc;
    [|apply nth_error_None in Hc; unfold len in Hi; lia].
  destruct (at_cursor _ _ Hc) as (pre & rest & -> & Hpre).
  assert (Hi' : i = len pre) by (unfold len; lia). subst i. clear Hpre Hi.
  rewrite to_nat_len. rewrite length_app in Hf. simpl in Hf.
  assert (Hlen : len (pre ++ c :: rest) = (len pre + 1 + len rest)%Z)
    by (rewrite len_app, len_cons; lia).
  assert (Hrun : forall p, (0 <= len (take_while p rest) <= len rest)%Z).
  { intros p. pose proof (take_while_length p rest). unfold len. lia. }
  pose proof (len_nonneg rest) as Hrest.
  destruct (isWhitespace c) eqn:Hw.
  { eexists. split; [now apply body_space|]. cbn [current_index tokens].
    split; [lia|]. left. exists c. now repeat split. }
  destruct (isLetter c) eqn:Hl.
  { eexists. split; [apply body_word; auto; lia|]. cbn [current_index tokens].
    pose proof (Hrun alnum). split; [lia|].
    right. eexists. split; [reflexivity|]. rewrite value_word_token.
    replace (Z.to_nat (len pre + 1 + len (take_while alnum rest) - len pre))
      with (length pre + 1 + length (take_while alnum rest) - length pre)
      by (unfold len; lia).
    symmetry. apply consumed_run. }
  destruct (isDigit c) eqn:Hd.
  { eexists. split; [apply body_number; auto; lia|]. cbn [current_index tokens].
    pose proof (Hrun isDigit). split; [lia|].
    right. eexists. split; [reflexivity|]. simpl value.
    replace (Z.to_nat (len pre + 1 + len (take_while isDigit rest) - len pre))
      with (length pre + 1 + length (take_while isDigit rest) - length pre)
      by (unfold len; lia).
    symmetry. apply consumed_run. }
  destruct (pairs_up c rest) eqn:Hp.
  - unfold pairs_up in Hp. apply andb_true_iff in Hp as [Hr He].
    destruct rest as [|d rest]; [discriminate|]. apply Ascii.eqb_eq in He. subst d.
    rewrite len_cons in Hlen. pose proof (len_nonneg rest).
    eexists. split; [now apply body_relop|]. cbn [current_index tokens].
    split; [lia|].
    right. eexists. split; [reflexivity|]. simpl value. symmetry.
    replace (Z.to_nat (len pre + 2 - len pre)) with (length pre + 2 - length pre)
      by (unfold len; lia).
    apply (@consumed_text pre [c; "="%char] rest). simpl. lia.
  - eexists. split; [now apply body_lone|]. cbn [current_index tokens].
    split; [lia|].
    right. eexists. split; [reflexivity|]. rewrite value_lone_token. symmetry.
    replace (Z.to_nat (len pre + 1 - len pre)) with (length pre + 1 - length pre)
      by (unfold len; lia).
    apply (@consumed_text pre [c] rest). simpl. lia.
Qed.

Lemma loop_body_progress_witness :
  exists st',
    loop_body 9 (lit "ab<=c") (mkState 2 [tok "IDENTIFIER" (lit "ab")]) = Ok st' /\
    current_index st' = 4%Z /\
    tokens st' = [tok "IDENTIFIER" (lit "ab"); tok "RELATIONAL_OPERATOR" (lit "<=")].
Proof.
  destruct (@loop_body_progress 9 (lit "ab<=c")
              (mkState 2 [tok "IDENTIFIER" (lit "ab")]))
    as (st' & Hrun & _).
  - unfold fits_int, len, INT_MAX; simpl; lia.
  - unfold len; simpl; lia.
  - simpl; lia.
  - exists st'. split; [exact Hrun|].
    assert (Hlhs : loop_body 9 (lit "ab<=c")
                     (mkState 2 [tok "IDENTIFIER" (lit "ab")])
                   = Ok (mkState 4%Z [tok "IDENTIFIER" (lit "ab");
                                      tok "RELATIONAL_OPERATOR" (lit "<=")]))
      by reflexivity.
    rewrite Hlhs in Hrun. injection Hrun as <-. split; reflexivity.
Defined.

(** ** What the tokens of a run look like *)

(** Every token of a stream was pushed on one of four paths. *)
Lemma Lex_token_cases suf toks :
  Lex suf toks ->
  Forall (fun t =>
    (exists c run, isLetter c = true /\ Forall (fun d => alnum d = true) run /\
                   t = word_token (c :: run)) \/
    (exists c run, isDigit c = true /\ Forall (fun d => isDigit d = true) run /\
                   t = tok "INTEGER" (c :: run)) \/
    (exists c, relop_lead c = true /\
               t = tok "RELATIONAL_OPERATOR" [c; "="%char]) \/
    (exists c, isWhitespace c = false /\ alnum c = false /\ t = lone_token c))
  toks.
Proof.
  apply Lex_Forall.
  - intros c run Hl Hrun. left. now exists c, run.
  - intros c run Hd Hrun. right; left. now exists c, run.
  - intros c Hr. right; right; left. now exists c.
  - intros c Hw Ha. right; right; right. now exists c.
Qed.

Lemma run_token_cases src toks t :
  lexicalAnalysis src = Ok toks -> In t toks ->
  (exists c run, isLetter c = true /\ Forall (fun d => alnum d = true) run /\
                 t = word_token (c :: run)) \/
  (exists c run, isDigit c = true /\ Forall (fun d => isDigit d = true) run /\
                 t = tok "INTEGER" (c :: run)) \/
  (exists c, relop_lead c = true /\
             t = tok "RELATIONAL_OPERATOR" [c; "="%char]) \/
  (exists c, isWhitespace c = false /\ alnum c = false /\ t = lone_token c).
Proof.
  intros Hrun Hin. apply lexicalAnalysis_inv, Lex_token_cases in Hrun.
  rewrite Forall_forall in Hrun. now apply Hrun.
Qed.

Lemma lone_token_arithmetic c :
  type (lone_token c) = lit "ARITHMETIC_OPERATOR" ->
  In c ["+"; "-"; "*"]%char.
Proof. by_cases_on_char c. Qed.

Lemma lone_token_assignment c :
  type (lone_token c) = lit "ASSIGNMENT_OPERATOR" -> c = "="%char.
Proof. by_cases_on_char c. Qed.

Lemma lone_token_is_error c :
  type (lone_token c) = lit "ERROR" -> single_char c = false.
Proof. by_cases_on_char c. Qed.

Lemma lone_token_not_accumulated c :
  ~ In (type (lone_token c))
       [lit "KEYWORD"; lit "IDENTIFIER"; lit "INTEGER"; lit "RELATIONAL_OPERATOR"].
Proof.
  unfold lone_token.
  destruct ((c ==c "+") || (c ==c "-") || (c ==c "*")); [simpl; intuition discriminate|].
  destruct (c ==c "="); [simpl; intuition discriminate|].
  destruct (single_char c); simpl; intuition discriminate.
Qed.

(** X5. A KEYWORD or IDENTIFIER token of a run holds a letter followed by
    letters and digits; it is a KEYWORD exactly when its lexeme is one of
    the reserved words, so no IDENTIFIER token ever holds a reserved word. *)
Theorem word_tokens_wellformed : forall sourceCode toks t,
  lexicalAnalysis sourceCode = Ok toks -> In t toks ->
  In (type t) [lit "KEYWORD"; lit "IDENTIFIER"] ->
  (exists c run,
      value t = c :: run /\ isLetter c = true /\
      Forall (fun d => isLetter d = true \/ isDigit d = true) run) /\
  (type t = lit "KEYWORD" <-> In (value t) KEYWORDS).
Proof.
  intros src toks t Hrun Hin Hty.
  destruct (@run_token_cases _ _ _ Hrun Hin)
    as [(c & run & Hl & Hr & ->) | [(c & run & _ & _ & ->)
       | [(c & _ & ->) | (c & _ & _ & ->)]]].
  - rewrite value_word_token, type_word_token. split.
    + exists c, run. repeat split; auto. now apply alnum_Forall.
    + rewrite <- isKeyword_In.
      destruct (isKeyword (c :: run)); split; intros H; try reflexivity;
        discriminate H.
  - simpl in Hty. exfalso. intuition discriminate.
  - simpl in Hty. exfalso. intuition discriminate.
  - exfalso. apply (lone_token_not_accumulated c). simpl in *. tauto.
Qed.

Lemma word_tokens_wellformed_witness :
  type (tok "KEYWORD" (lit "int")) = lit "KEYWORD" <->
  In (value (tok "KEYWORD" (lit "int"))) KEYWORDS.
Proof.
  apply (@word_tokens_wellformed (lit "int x")
           [tok "KEYWORD" (lit "int"); tok "IDENTIFIER" (lit "x")]).
  - reflexivity.
  - simpl. tauto.
  - simpl. tauto.
Defined.

(** X6. An INTEGER token of a run holds a non-empty string of digits and
    nothing else: no sign, no letter, no point. *)
Theorem integer_tokens_are_digits : forall sourceCode toks t,
  lexicalAnalysis sourceCode = Ok toks -> In t toks ->
  type t = lit "INTEGER" ->
  value t <> [] /\ Forall (fun d => isDigit d = true) (value t).
Proof.
  intros src toks t Hrun Hin Hty.
  destruct (@run_token_cases _ _ _ Hrun Hin)
    as [(c & run & _ & _ & ->) | [(c & run & Hd & Hr & ->)
       | [(c & _ & ->) | (c & _ & _ & ->)]]].
  - rewrite type_word_token in Hty.
    destruct (isKeyword (c :: run)); discriminate Hty.
  - simpl. split; [discriminate | now constructor].
  - discriminate Hty.
  - exfalso. apply (lone_token_not_accumulated c). rewrite Hty. simpl. tauto.
Qed.

Lemma integer_tokens_are_digits_witness :
  value (tok "INTEGER" (lit "42")) <> [] /\
  Forall (fun d => isDigit d = true) (value (tok "INTEGER" (lit "42"))).
Proof.
  apply (@integer_tokens_are_digits (lit "x=42")
           [tok "IDENTIFIER" (lit "x"); tok "ASSIGNMENT_OPERATOR" (lit "=");
            tok "INTEGER" (lit "42")]).
  - reflexivity.
  - simpl. tauto.
  - reflexivity.
Defined.

(** X7. The operator and error tokens of a run hold what their kind says:
    a RELATIONAL_OPERATOR token holds [==], [<=] or [>=]; an
    ARITHMETIC_OPERATOR token holds [+], [-] or [*]; an ASSIGNMENT_OPERATOR
    token holds [=]; an ERROR token holds one character that is no letter,
    no digit, no whitespace and not in the single-character token set. *)
Theorem operator_and_error_lexemes : forall sourceCode toks t,
  lexicalAnalysis sourceCode = Ok toks -> In t toks ->
  (type t = lit "RELATIONAL_OPERATOR" ->
   In (value t) [lit "=="; lit "<="; lit ">="]) /\
  (type t = lit "ARITHMETIC_OPERATOR" ->
   In (value t) [lit "+"; lit "-"; lit "*"]) /\
  (type t = lit "ASSIGNMENT_OPERATOR" -> value t = lit "=") /\
  (type t = lit "ERROR" ->
   exists c, value t = [c] /\ isLetter c = false /\ isDigit c = false /\
             isWhitespace c = false /\ ~ In c SINGLE_CHAR_TOKENS).
Proof.
  intros src toks t Hrun Hin.
  destruct (@run_token_cases _ _ _ Hrun Hin)
    as [(c & run & _ & _ & ->) | [(c & run & _ & _ & ->)
       | [(c & Hr & ->) | (c & Hw & Ha & ->)]]].
  - rewrite type_word_token.
    destruct (isKeyword (c :: run)); repeat split; discriminate.
  - repeat split; discriminate.
  - repeat split; try discriminate. intros _.
    apply relop_lead_In in Hr. simpl in *.
    destruct Hr as [<- | [<- | [<- | []]]]; tauto.
  - rewrite value_lone_token. repeat split.
    + intros H. exfalso. apply (lone_token_not_accumulated c). rewrite H.
      simpl. tauto.
    + intros H. apply lone_token_arithmetic in H. simpl in *.
      destruct H as [<- | [<- | [<- | []]]]; tauto.
    + intros H. apply lone_token_assignment in H. now subst c.
    + intros H. apply lone_token_is_error in H. exists c.
      unfold alnum in Ha. apply orb_false_iff in Ha as [Hl Hd].
      repeat split; auto. intros Hs. apply single_char_In in Hs. congruence.
Qed.

Lemma operator_and_error_lexemes_witness :
  In (value (tok "RELATIONAL_OPERATOR" (lit "<=")))
     [lit "=="; lit "<="; lit ">="].
Proof.
  apply (@operator_and_error_lexemes (lit "a<=1")
           [tok "IDENTIFIER" (lit "a"); tok "RELATIONAL_OPERATOR" (lit "<=");
            tok "INTEGER" (lit "1")]).
  - reflexivity.
  - simpl. tauto.
  - reflexivity.
Defined.

(** ** Extending a text *)

Lemma take_while_keep p l m :
  drop_while p l <> [] ->
  take_while p (l ++ m) = take_while p l /\
  drop_while p (l ++ m) = drop_while p l ++ m.
Proof.
  induction l as [|c l IH]; simpl; [congruence|].
  destruct (p c); [|now split].
  intros H. destruct (IH H) as [-> ->]. now split.
Qed.

Lemma removelast_cons_prefix (t : Token) toks all tail :
  all = removelast toks ++ tail ->
  exists tail', t :: all = removelast (t :: toks) ++ tail'.
Proof.
  intros ->. destruct toks as [|t' toks].
  - now exists (t :: tail).
  - now exists tail.
Qed.

Lemma Lex_extend post pre toks :
  Lex pre toks ->
  exists all tail, Lex (pre ++ post) all /\ all = removelast toks ++ tail.
Proof.
  induction 1 as [ | c rest toks Hw _ IH | c rest toks Hw Hl HL IH
                 | c rest toks Hw Hl Hd HL IH | c rest toks Hr _ IH
                 | c rest toks Hw Hl Hd Hp HL IH ].
  - destruct (Lex_total post) as [all Hall]. now exists all, all.
  - destruct IH as (all & tail & Hall & ->).
    exists (removelast toks ++ tail), tail. split; [|reflexivity].
    now apply Lex_space.
  - destruct (drop_while alnum rest) as [|d r] eqn:E.
    + apply Lex_nil_inv in HL. subst toks.
      destruct (Lex_total ((c :: rest) ++ post)) as [all Hall]. now exists all, all.
    + destruct IH as (all & tail & Hall & Heq).
      destruct (@take_while_keep alnum rest post) as [Ht Hd']; [congruence|].
      destruct (@removelast_cons_prefix (word_token (c :: take_while alnum rest)) _ _ _ Heq)
        as [tail' Htail].
      eexists. exists tail'. split; [|exact Htail].
      simpl. rewrite <- Ht. apply Lex_word; auto. now rewrite Hd', E.
  - destruct (drop_while isDigit rest) as [|d r] eqn:E.
    + apply Lex_nil_inv in HL. subst toks.
      destruct (Lex_total ((c :: rest) ++ post)) as [all Hall]. now exists all, all.
    + destruct IH as (all & tail & Hall & Heq).
      destruct (@take_while_keep isDigit rest post) as [Ht Hd']; [congruence|].
      destruct (@removelast_cons_prefix (tok "INTEGER" (c :: take_while isDigit rest)) _ _ _ Heq)
        as [tail' Htail].
      eexists. exists tail'. split; [|exact Htail].
      simpl. rewrite <- Ht. apply Lex_number; auto. now rewrite Hd', E.
  - destruct IH as (all & tail & Hall & Heq).
    destruct (@removelast_cons_prefix (tok "RELATIONAL_OPERATOR" [c; "="%char]) _ _ _ Heq)
      as [tail' Htail].
    eexists. exists tail'. split; [|exact Htail]. simpl. now apply Lex_relop.
  - destruct rest as [|d rest].
    + apply Lex_nil_inv in HL. subst toks.
      destruct (Lex_total ([c] ++ post)) as [all Hall]. now exists all, all.
    + destruct IH as (all & tail & Hall & Heq).
      destruct (@removelast_cons_prefix (lone_token c) _ _ _ Heq) as [tail' Htail].
      eexists. exists tail'. split; [|exact Htail]. simpl. now apply Lex_lone.
Qed.

(** X13. The scanner never goes back on a token: when text is appended to a
    source and the whole has fewer than 2^31 characters, every token of the shorter source except its last one is found
    again, at the same place, in the tokens of the longer source.  Only the
    last token can still change, as when [<] becomes [<=]. *)
Theorem tokens_stable_under_extension : forall pre post,
  fits_int (pre ++ post) ->
  exists toks_pre toks_all tail,
    lexicalAnalysis pre = Ok toks_pre /\
    lexicalAnalysis (pre ++ post) = Ok toks_all /\
    toks_all = removelast toks_pre ++ tail.
Proof.
  intros pre post Hfit. destruct (Lex_total pre) as [toks Hpre].
  destruct (Lex_extend post Hpre) as (all & tail & Hall & Heq).
  destruct (fits_int_app _ _ Hfit) as [Hfit1 _].
  exists toks, all, tail. repeat split; auto using lexicalAnalysis_Lex.
Qed.

Lemma tokens_stable_under_extension_witness :
  exists toks_pre toks_all tail,
    lexicalAnalysis (lit "a <") = Ok toks_pre /\
    lexicalAnalysis (lit "a <" ++ lit "= b") = Ok toks_all /\
    toks_all = removelast toks_pre ++ tail.
Proof.
  apply (@tokens_stable_under_extension (lit "a <") (lit "= b")).
  unfold fits_int, len, INT_MAX; simpl; lia.
Defined.

(** ** The table printed by [main] *)

Lemma print_token_row w t :
  print_token w t = mkConsole (cout w ++ row t) (cerr w).
Proof.
  unfold print_token, row, to_cout.
  destruct (length (type t) <? 8); simpl; f_equal;
    rewrite <- ?app_assoc; reflexivity.
Qed.

Lemma print_tokens_rows toks : forall w,
  print_tokens toks w = mkConsole (cout w ++ concat (map row toks)) (cerr w).
Proof.
  unfold print_tokens. induction toks as [|t toks IH]; intros w; simpl.
  - rewrite app_nil_r. now destruct w.
  - rewrite IH, print_token_row. simpl. now rewrite <- app_assoc.
Qed.

(** Two texts that agree up to and including the first [x] of each. *)
Lemma split_at_first (x : ascii) : forall l1 l2 r1 r2,
  ~ In x l1 -> ~ In x l2 ->
  l1 ++ x :: r1 = l2 ++ x :: r2 -> l1 = l2 /\ r1 = r2.
Proof.
  induction l1 as [|a l1 IH]; intros [|b l2] r1 r2 H1 H2 Heq; simpl in *.
  - injection Heq as <-. now split.
  - injection Heq as -> _. exfalso. apply H2. now left.
  - injection Heq as -> _. exfalso. apply H1. now left.
  - injection Heq as -> Heq.
    destruct (IH l2 r1 r2) as [-> ->]; auto.
Qed.

(** What makes a token printable on a line of its own: no tab in its kind,
    no newline in its kind or lexeme. *)
Lemma Lex_printable suf toks :
  Lex suf toks ->
  Forall (fun t => ~ In tab (type t) /\ ~ In newline (type t) /\
                   ~ In newline (value t)) toks.
Proof.
  intros HL. pose proof (Lex_no_space HL) as Hns. pose proof (Lex_shape HL) as Hsh.
  rewrite Forall_forall in *. intros t Hin.
  assert (Hkind : In (type t) KINDS).
  { destruct (Hsh t Hin) as [_ [H | [[-> _] | [H _]]]]; simpl in *; tauto. }
  assert (Hk : ~ In tab (type t) /\ ~ In newline (type t)).
  { simpl in Hkind.
    repeat (destruct Hkind as [<- | Hkind];
            [split; vm_compute; intuition discriminate|]).
    destruct Hkind. }
  destruct Hk as [Hk1 Hk2]. repeat split; auto.
  intros Hnl. specialize (Hns t Hin). rewrite Forall_forall in Hns.
  apply Hns in Hnl. discriminate Hnl.
Qed.

Lemma count_none (x : ascii) l : ~ In x l -> count_occ ascii_dec l x = 0.
Proof. apply count_occ_not_In. Qed.

Lemma row_one_line t :
  ~ In newline (type t) -> ~ In newline (value t) ->
  count_occ ascii_dec (row t) newline = 1.
Proof.
  intros Ht Hv. unfold row.
  rewrite !count_occ_app, (@count_none _ _ Ht), (@count_none _ _ Hv).
  now destruct (length (type t) <? 8).
Qed.

(** X16. The table that [main] prints has exactly one line per token: the
    loop over the tokens of a run adds as many newlines to the standard
    output as there are tokens, for no kind and no lexeme contains one, and
    it writes nothing to the standard error. *)
Theorem table_has_one_line_per_token : forall sourceCode toks w,
  lexicalAnalysis sourceCode = Ok toks ->
  count_occ ascii_dec (cout (print_tokens toks w)) newline
  = count_occ ascii_dec (cout w) newline + length toks /\
  cerr (print_tokens toks w) = cerr w.
Proof.
  intros src toks w Hrun. rewrite print_tokens_rows. simpl. split; [|reflexivity].
  rewrite count_occ_app. f_equal.
  apply lexicalAnalysis_inv, Lex_printable in Hrun.
  induction Hrun as [|t toks (_ & Ht & Hv) _ IH]; simpl; [reflexivity|].
  now rewrite count_occ_app, row_one_line, IH.
Qed.

Lemma table_has_one_line_per_token_witness :
  count_occ ascii_dec
    (cout (print_tokens [tok "KEYWORD" (lit "if"); tok "IDENTIFIER" (lit "x")]
             (mkConsole [newline] []))) newline
  = count_occ ascii_dec (cout (mkConsole [newline] [])) newline + 2.
Proof.
  apply (@table_has_one_line_per_token (lit "if x")). reflexivity.
Defined.

Lemma row_inj t1 t2 more1 more2 :
  ~ In tab (type t1) -> ~ In newline (value t1) ->
  ~ In tab (type t2) -> ~ In newline (value t2) ->
  row t1 ++ more1 = row t2 ++ more2 -> t1 = t2 /\ more1 = more2.
Proof.
  intros Hk1 Hv1 Hk2 Hv2 Heq. unfold row in Heq.
  assert (Hshape : forall t more,
    (type t ++ (if length (type t) <? 8 then [tab] else [])
       ++ [tab; tab] ++ value t ++ [newline]) ++ more
    = type t ++ tab ::
        ((if length (type t) <? 8 then [tab] else [])
           ++ tab :: value t ++ newline :: more)).
  { intros t more. rewrite <- !app_assoc.
    destruct (length (type t) <? 8); simpl; rewrite <- ?app_assoc; reflexivity. }
  rewrite !Hshape in Heq.
  apply split_at_first in Heq as [Hty Heq]; auto.
  rewrite Hty in Heq. apply app_inv_head in Heq. injection Heq as Heq.
  apply split_at_first in Heq as [Hval Hmore]; auto.
  split; [|exact Hmore]. destruct t1, t2; simpl in *. now subst.
Qed.

(** X17. The printed table determines the tokens: two runs whose tokens
    print the same rows returned the same token sequence.  A kind holds no
    tab and a lexeme holds no newline, so a row can be taken apart again. *)
Theorem printed_table_determines_tokens :
  forall sourceCode1 sourceCode2 toks1 toks2 w,
    lexicalAnalysis sourceCode1 = Ok toks1 ->
    lexicalAnalysis sourceCode2 = Ok toks2 ->
    print_tokens toks1 w = print_tokens toks2 w ->
    toks1 = toks2.
Proof.
  intros src1 src2 toks1 toks2 w H1 H2 Heq.
  rewrite !print_tokens_rows in Heq. injection Heq as Heq.
  apply app_inv_head in Heq.
  apply lexicalAnalysis_inv, Lex_printable in H1, H2. clear src1 src2 w.
  revert toks2 H2 Heq.
  induction H1 as [|t1 toks1 (Hk1 & _ & Hv1) _ IH];
    intros [|t2 toks2] H2 Heq; simpl in Heq.
  - reflexivity.
  - apply (f_equal (@length ascii)) in Heq. unfold row in Heq.
    rewrite !length_app in Heq. simpl in Heq. lia.
  - apply (f_equal (@length ascii)) in Heq. unfold row in Heq.
    rewrite !length_app in Heq. simpl in Heq. lia.
  - inversion H2 as [|? ? (Hk2 & _ & Hv2) H2']; subst.
    apply row_inj in Heq as [-> Heq]; auto.
    f_equal. now apply IH.
Qed.

Lemma printed_table_determines_tokens_witness :
  [tok "INTEGER" (lit "1"); tok "ARITHMETIC_OPERATOR" (lit "+");
   tok "INTEGER" (lit "2")]
  = [tok "INTEGER" (lit "1"); tok "ARITHMETIC_OPERATOR" (lit "+");
     tok "INTEGER" (lit "2")].
Proof.
  apply (@printed_table_determines_tokens (lit "1+2") (lit " 1 + 2 ") _ _
           (mkConsole [] [])); reflexivity.
Defined.

(** X18. What [main] does is decided by the file.  When the file does not
    open it returns 1, having written the prompt and nothing else to the
    standard output and one message naming the file to the standard error;
    the scanner is not run.  When the file opens and holds fewer than 2^31
    characters it returns 0 with nothing on the standard error, and the
    standard output is the prompt, the text of the file between two
    banners, the head of the table, one row per token of the file in order,
    and the closing notes.  When the file holds 2^31 characters or more,
    [main] does not return: the scanner overflows its cursor. *)
Theorem main_outcome : forall filename open_file,
  let prompt := lit "Enter the source code filename (e.g., example.txt): " in
  match open_file filename with
  | None =>
      main filename open_file
      = Ok (1%Z,
            mkConsole prompt
              (lit "Error: Could not open the file '" ++ filename ++
               lit "'. Please check the path and filename." ++ [newline]))
  | Some sourceCode =>
      (fits_int sourceCode ->
       exists toks,
         lexicalAnalysis sourceCode = Ok toks /\
         main filename open_file
         = Ok (0%Z,
               mkConsole
                 (prompt ++
                  ([newline] ++ lit "--- Source Code Read from " ++ filename ++
                   lit " ---" ++ [newline]) ++
                  sourceCode ++
                  ([newline] ++ lit "-------------------" ++ [newline]) ++
                  ([newline] ++ lit "--- Lexical Analysis Results ---" ++ [newline]) ++
                  (lit "Type" ++ [tab; tab; tab] ++ lit "Value" ++ [newline]) ++
                  (lit "----------------------------------" ++ [newline]) ++
                  concat (map row toks) ++
                  ([newline] ++ lit "--- README Notes (Project Requirement) ---"
                   ++ [newline]) ++
                  (lit "This Lexical Analyzer uses a State Machine implemented in C++ to simulate a DFA."
                   ++ [newline]) ++
                  (lit "The logic clearly demonstrates the application of Finite Automata to language recognition."
                   ++ [newline]))
                 [])) /\
      (~ fits_int sourceCode -> main filename open_file = Overflow)
  end.
Proof.
  intros filename open_file prompt. unfold main.
  destruct (open_file filename) as [src|].
  - split.
    + intros Hfit. destruct (Lex_total src) as [toks HL]. exists toks.
      pose proof (lexicalAnalysis_Lex HL Hfit) as Hrun. split; [exact Hrun|].
      rewrite Hrun. cbn [bind]. rewrite print_tokens_rows.
      unfold to_cout. cbn [cout cerr]. do 2 f_equal.
      rewrite <- !app_assoc. reflexivity.
    + intros Hlong. unfold lexicalAnalysis. rewrite long_text_overflows.
      * reflexivity.
      * exact Hlong.
      * unfold fits_int, len in Hlong. lia.
  - unfold to_cerr, to_cout. cbn [cout cerr].
    do 2 f_equal; rewrite <- ?app_assoc; reflexivity.
Qed.

Lemma main_outcome_witness :
  exists toks,
    lexicalAnalysis (lit "x=1") = Ok toks /\
    exists out,
      main (lit "a.txt") (fun _ => Some (lit "x=1"))
      = Ok (0%Z, mkConsole out []).
Proof.
  destruct (proj1 (main_outcome (lit "a.txt") (fun _ => Some (lit "x=1"))))
    as (toks & Hrun & Hmain).
  - unfold fits_int, len, INT_MAX; simpl; lia.
  - exists toks. split; [exact Hrun|]. eexists. exact Hmain.
Defined.

(** ** Scanning lexemes again *)

Lemma Lex_word_alone c run :
  isLetter c = true -> Forall (fun d => alnum d = true) run ->
  Lex (c :: run) [word_token (c :: run)].
Proof.
  intros Hl Hrun. destruct (@take_while_whole _ _ Hrun) as [Ht Hd].
  rewrite <- Ht at 2. apply Lex_word; auto using letter_not_space.
  rewrite Hd. apply Lex_end.
Qed.

Lemma Lex_number_alone c run :
  isDigit c = true -> Forall (fun d => isDigit d = true) run ->
  Lex (c :: run) [tok "INTEGER" (c :: run)].
Proof.
  intros Hd Hrun. destruct (@take_while_whole _ _ Hrun) as [Ht Hdrop].
  rewrite <- Ht at 2.
  apply Lex_number; auto using digit_not_space, digit_not_letter.
  rewrite Hdrop. apply Lex_end.
Qed.

Lemma Lex_token_alone suf toks :
  Lex suf toks -> Forall (fun t => Lex (value t) [t]) toks.
Proof.
  intros HL. apply Lex_token_cases in HL.
  eapply Forall_impl; [|exact HL]. simpl.
  intros t [(c & run & Hl & Hr & ->) | [(c & run & Hd & Hr & ->)
            | [(c & Hr & ->) | (c & Hw & Ha & ->)]]].
  - rewrite value_word_token. now apply Lex_word_alone.
  - now apply Lex_number_alone.
  - apply Lex_relop; [exact Hr | apply Lex_end].
  - rewrite value_lone_token.
    unfold alnum in Ha. apply orb_false_iff in Ha as [Hl Hd].
    apply Lex_lone; auto; [|apply Lex_end]. unfold pairs_up. apply andb_false_r.
Qed.

(** X14. Every lexeme scans to its own token: for each token of a run, the
    scanner applied to the lexeme alone returns exactly that token.  The
    kind of a token is therefore a function of its lexeme. *)
Theorem lexeme_rescans_to_its_token : forall sourceCode toks t,
  lexicalAnalysis sourceCode = Ok toks -> In t toks ->
  lexicalAnalysis (value t) = Ok [t].
Proof.
  intros src toks t Hrun Hin.
  pose proof (@lexicalAnalysis_fits _ _ Hrun) as Hfit.
  apply lexicalAnalysis_inv in Hrun.
  pose proof (Lex_token_alone Hrun) as Halone.
  rewrite Forall_forall in Halone.
  apply lexicalAnalysis_Lex; [now apply Halone|].
  apply (@fits_int_shorter _ src); [|exact Hfit].
  pose proof (Lex_lexemes_length Hrun) as Hsum.
  apply in_split in Hin as (l1 & l2 & ->).
  rewrite map_app, concat_app, length_app in Hsum. simpl in Hsum.
  rewrite length_app in Hsum. lia.
Qed.

Lemma lexeme_rescans_to_its_token_witness :
  lexicalAnalysis (value (tok "RELATIONAL_OPERATOR" (lit ">=")))
  = Ok [tok "RELATIONAL_OPERATOR" (lit ">=")].
Proof.
  apply (@lexeme_rescans_to_its_token (lit "a>=b")
           [tok "IDENTIFIER" (lit "a"); tok "RELATIONAL_OPERATOR" (lit ">=");
            tok "IDENTIFIER" (lit "b")]).
  - reflexivity.
  - simpl. tauto.
Defined.

Lemma Lex_unwords suf toks :
  Lex suf toks -> Lex (unwords (map value toks)) toks.
Proof.
  intros HL. pose proof (Lex_token_alone HL) as Halone. clear HL.
  induction Halone as [|t toks Ht _ IH]; [apply Lex_end|].
  unfold unwords in *. simpl. rewrite <- app_assoc. simpl.
  change (t :: toks) with ([t] ++ toks).
  apply Lex_cut; auto. now apply Lex_space.
Qed.

(** X15. Writing the lexemes of a run one after the other with a space
    after each, and scanning that text, gives the tokens of the run again,
    provided the respaced text still has fewer than 2^31 characters: the
    tokens survive the loss of the original spacing. *)
Theorem tokens_survive_respacing : forall sourceCode toks,
  lexicalAnalysis sourceCode = Ok toks ->
  fits_int (unwords (map value toks)) ->
  lexicalAnalysis (unwords (map value toks)) = Ok toks.
Proof.
  intros src toks Hrun Hfit. apply lexicalAnalysis_inv in Hrun.
  apply lexicalAnalysis_Lex; [|exact Hfit]. now apply Lex_unwords with src.
Qed.

Lemma tokens_survive_respacing_witness :
  lexicalAnalysis
    (unwords (map value [tok "IDENTIFIER" (lit "a");
                         tok "RELATIONAL_OPERATOR" (lit "<=");
                         tok "INTEGER" (lit "1")]))
  = Ok [tok "IDENTIFIER" (lit "a"); tok "RELATIONAL_OPERATOR" (lit "<=");
        tok "INTEGER" (lit "1")].
Proof.
  apply (@tokens_survive_respacing (lit "a<=1")).
  - reflexivity.
  - unfold fits_int, len, INT_MAX; simpl; lia.
Defined.

(** X4. Wherever [<=] or [>=] stands in a text of fewer than 2^31
    characters it yields one
    RELATIONAL_OPERATOR token, between the tokens of the text before it and
    those of the text after it.  (For [==] this depends on what precedes:
    in [<==] the first [=] belongs to [<=].) *)
Theorem ordering_operator_tokens : forall c pre post,
  fits_int (pre ++ c :: "="%char :: post) ->
  In c ["<"; ">"]%char ->
  exists before after,
    lexicalAnalysis pre = Ok before /\
    lexicalAnalysis post = Ok after /\
    lexicalAnalysis (pre ++ c :: "="%char :: post)
    = Ok (before ++ tok "RELATIONAL_OPERATOR" [c; "="%char] :: after).
Proof.
  intros c pre post Hfit Hc.
  assert (Hfacts : alnum c = false /\ (c ==c "=") = false /\ relop_lead c = true).
  { simpl in Hc. repeat (destruct Hc as [<- | Hc]; [now vm_compute|]).
    destruct Hc. }
  destruct Hfacts as (Ha & He & Hr).
  destruct (Lex_total pre) as [before Hpre].
  destruct (Lex_total post) as [after Hpost].
  destruct (fits_int_app _ _ Hfit) as [Hfit1 Hfit2].
  apply (@fits_int_shorter post) in Hfit2; [|simpl; lia].
  exists before, after. repeat split; try now apply lexicalAnalysis_Lex.
  apply lexicalAnalysis_Lex; [|exact Hfit]. apply Lex_cut; auto.
  now apply Lex_relop.
Qed.

Lemma ordering_operator_tokens_witness :
  lexicalAnalysis (lit "a=" ++ ">"%char :: "="%char :: lit "=b")
  = Ok ([tok "IDENTIFIER" (lit "a"); tok "ASSIGNMENT_OPERATOR" (lit "=")] ++
        tok "RELATIONAL_OPERATOR" (lit ">=") ::
        [tok "ASSIGNMENT_OPERATOR" (lit "="); tok "IDENTIFIER" (lit "b")]).
Proof.
  destruct (@ordering_operator_tokens ">"%char (lit "a=") (lit "=b"))
    as (before & after & Hb & Ha & H);
    [unfold fits_int, len, INT_MAX; simpl; lia | simpl; tauto |].
  vm_compute in Hb. vm_compute in Ha.
  injection Hb as <-. injection Ha as <-. exact H.
Defined.
